(** * The cache balancer of the buffer cache
    (src/buffer_cache/alt/cache_balancer.cc)

    A shallow embedding of [alt_cache_balancer_t]: the timer callback
    [on_ring], the rebalance pass [coro_pool_callback] with its sizing
    formula and its loop that distributes the rounding error, the per-thread
    [apply_rebalance_to_thread], and the read-ahead latch. *)

From Stdlib Require Import ZArith Lia Bool SpecFloat.
From stdpp Require Import base decidable option list sorting gmap functions.

Local Open Scope Z_scope.

(** ** Machine integers

    [uint64_t] and [int64_t] values are integers of [Z]; every operation
    of the source is followed by the reduction its C++ type performs.
    Arithmetic that mixes the two types is done by C++ on [uint64_t] and
    converted to the type of the variable assigned, which amounts to one
    reduction of the exact result. Signed overflow, which C++ leaves
    undefined, wraps as on two's complement hardware. *)

Definition u64 (x : Z) : Z := x mod 2 ^ 64.

Definition i64 (x : Z) : Z :=
  let y := x mod 2 ^ 64 in if y <? 2 ^ 63 then y else y - 2 ^ 64.

Definition INT64_MIN : Z := - 2 ^ 63.

(** [a / b] on [int64_t]: the quotient truncated towards zero. *)
Definition div_i64 (a b : Z) : Z := i64 (Z.quot a b).

(** ** IEEE-754 binary64

    [double] values are [spec_float]s and the operations are the ones of
    the Standard Library's specification of binary64 (precision 53,
    [emax] 1024, round to nearest even). *)

Definition double : Type := spec_float.

Definition prec : Z := 53.
Definition emax : Z := 1024.

(** [static_cast<double>(x)] for a [uint64_t] [x], and the implicit
    conversion of line 116. *)
Definition double_of_u64 (x : Z) : double := binary_normalize prec emax x 0 false.

Definition ddiv (x y : double) : double := SFdiv prec emax x y.
Definition dmul (x y : double) : double := SFmul prec emax x y.

(** The integral part of a finite [double], truncated towards zero. *)
Definition trunc_double (x : double) : option Z :=
  match x with
  | S754_zero _ => Some 0
  | S754_finite s m e =>
      let a := Z.shiftl (Z.pos m) e in Some (if s then - a else a)
  | S754_infinity _ | S754_nan => None
  end.

(** [static_cast<int64_t>(x)] for a [double] [x]. C++ defines the result
    only when the truncated value fits; for the other values (and for NaN)
    the model gives what the x86-64 conversion instruction does, the
    "integer indefinite" value [INT64_MIN]. *)
Definition i64_of_double (x : double) : Z :=
  match trunc_double x with
  | Some t => if (INT64_MIN <=? t) && (t <? 2 ^ 63) then t else INT64_MIN
  | None => INT64_MIN
  end.

(** ** Constants (lines 7-14) *)

Definition rebalance_check_interval_ms : Z := 20.
Definition rebalance_access_count_threshold : Z := 100.
Definition rebalance_timeout_ms : Z := 500.
Definition read_ahead_ratio_numerator : Z := 9.
Definition read_ahead_ratio_denominator : Z := 10.

(** ** Data *)

(** An [alt::evicter_t *]: the address of an evicter. *)
Definition evicter_ptr : Type := N.

(** Modelled from the spec: the declaration of [cache_data_t]
    (buffer_cache/alt/cache_balancer.hpp is not among the sources). The
    fields are the four that lines 16-20 initialise: "[evicter] reference,
    [old_size] (evicter's limit at snapshot time), [bytes_loaded] (load
    since last snapshot), [new_size] (computed output, initially 0)". The
    three sizes are [uint64_t]s, as the accessors that they are read from
    ("[get_memory_limit() -> u64], [get_bytes_loaded() -> u64]") and as the
    cast of line 142 show. *)
Record cache_data_t : Type := Build_cache_data {
  evicter : evicter_ptr;
  new_size : Z;
  old_size : Z;
  bytes_loaded : Z
}.

Definition set_new_size (n : Z) (d : cache_data_t) : cache_data_t :=
  {| evicter := evicter d; new_size := n;
     old_size := old_size d; bytes_loaded := bytes_loaded d |}.

(** ** The sizing formula (lines 116-125) *)

Definition size_share (total_cache_size total_bytes_loaded : Z) (d : cache_data_t) : double :=
  let temp := double_of_u64 (old_size d) in
  let temp := ddiv temp (double_of_u64 total_cache_size) in
  dmul temp (double_of_u64 total_bytes_loaded).

Definition calculate_new_size (total_cache_size total_bytes_loaded : Z) (d : cache_data_t) : Z :=
  let temp := size_share total_cache_size total_bytes_loaded d in
  let new_size := i64 (bytes_loaded d) in
  let new_size := i64 (new_size - i64_of_double temp) in
  let new_size := i64 (new_size + old_size d) in
  let new_size := Z.max new_size 0 in
  u64 new_size.

(** lines 112-128: the sizes of one thread's records, then of all
    threads; [total_new_sizes] is threaded through both loops. *)
Fixpoint calculate_thread_sizes (total_cache_size total_bytes_loaded total_new_sizes : Z)
    (v : list cache_data_t) : Z * list cache_data_t :=
  match v with
  | [] => (total_new_sizes, [])
  | d :: v' =>
      let n := calculate_new_size total_cache_size total_bytes_loaded d in
      let '(t, r) := calculate_thread_sizes total_cache_size total_bytes_loaded
                       (u64 (total_new_sizes + n)) v' in
      (t, set_new_size n d :: r)
  end.

Fixpoint calculate_sizes (total_cache_size total_bytes_loaded total_new_sizes : Z)
    (data : list (list cache_data_t)) : Z * list (list cache_data_t) :=
  match data with
  | [] => (total_new_sizes, [])
  | v :: data' =>
      let '(t, v1) := calculate_thread_sizes total_cache_size total_bytes_loaded
                        total_new_sizes v in
      let '(t', r) := calculate_sizes total_cache_size total_bytes_loaded t data' in
      (t', v1 :: r)
  end.

(** ** Distributing the rounding error (lines 130-151) *)

(** lines 133-136 *)
Definition rounding_delta (total_evicters extra_bytes : Z) : Z :=
  let delta := div_i64 extra_bytes (i64 total_evicters) in
  if delta =? 0 then (if extra_bytes <? 0 then -1 else 1) else delta.

(** lines 141-148: one record; the result is the new [extra_bytes] and
    the record. *)
Definition adjust (delta extra_bytes : Z) (d : cache_data_t) : Z * cache_data_t :=
  if 0 <=? i64 (i64 (new_size d) + delta)
  then (i64 (extra_bytes - delta), set_new_size (u64 (new_size d + delta)) d)
  else (i64 (extra_bytes + new_size d), set_new_size 0 d).

(** lines 138-149: the loop over [j], left as soon as [extra_bytes] is 0. *)
Fixpoint distribute_thread (delta extra_bytes : Z) (v : list cache_data_t)
    : Z * list cache_data_t :=
  match v with
  | [] => (extra_bytes, [])
  | d :: v' =>
      if extra_bytes =? 0 then (extra_bytes, v)
      else
        let '(e1, d1) := adjust delta extra_bytes d in
        let '(e2, r) := distribute_thread delta e1 v' in
        (e2, d1 :: r)
  end.

(** lines 137-150: the loop over [i]. *)
Fixpoint distribute_pass (delta extra_bytes : Z) (data : list (list cache_data_t))
    : Z * list (list cache_data_t) :=
  match data with
  | [] => (extra_bytes, [])
  | v :: data' =>
      if extra_bytes =? 0 then (extra_bytes, data)
      else
        let '(e1, v1) := distribute_thread delta extra_bytes v in
        let '(e2, r) := distribute_pass delta e1 data' in
        (e2, v1 :: r)
  end.

(** lines 132-151: the [while] loop. [fuel] bounds the number of passes;
    [None] means that the loop is still running when the fuel is spent. *)
Fixpoint distribute_rounding_error (fuel : nat) (total_evicters extra_bytes : Z)
    (data : list (list cache_data_t)) : option (list (list cache_data_t)) :=
  if extra_bytes =? 0 then Some data
  else
    match fuel with
    | O => None
    | S fuel' =>
        let delta := rounding_delta total_evicters extra_bytes in
        let '(e, r) := distribute_pass delta extra_bytes data in
        distribute_rounding_error fuel' total_evicters e r
    end.

(** line 131 *)
Definition initial_extra_bytes (total_cache_size total_new_sizes : Z) : Z :=
  i64 (u64 (total_cache_size - total_new_sizes)).

(** lines 110-151: the new sizes of a snapshot. *)
Definition new_cache_sizes (fuel : nat) (total_cache_size total_evicters total_bytes_loaded : Z)
    (data : list (list cache_data_t)) : option (list (list cache_data_t)) :=
  let '(total_new_sizes, sized) := calculate_sizes total_cache_size total_bytes_loaded 0 data in
  distribute_rounding_error fuel total_evicters
    (initial_extra_bytes total_cache_size total_new_sizes) sized.

(** All the records of a snapshot, in the order of the loops. *)
Definition records (data : list (list cache_data_t)) : list cache_data_t := concat data.

Definition sum_new_sizes (l : list cache_data_t) : Z :=
  foldr (fun d acc => new_size d + acc) 0 l.

Definition sum_old_and_loaded (l : list cache_data_t) : Z :=
  foldr (fun d acc => old_size d + bytes_loaded d + acc) 0 l.

Definition sum_bytes_loaded (l : list cache_data_t) : Z :=
  foldr (fun d acc => bytes_loaded d + acc) 0 l.

Definition sum_old_sizes (l : list cache_data_t) : Z :=
  foldr (fun d acc => old_size d + acc) 0 l.

(** ** The formula in the words of the specification

    [new_size = max(0, bytes_loaded + old_size - round(old_size /
    total_cache_size * total_bytes_loaded))], with [round] read as rounding
    to the nearest integer (halves away from zero, as C's [round]). *)
Definition round_double (x : double) : option Z :=
  match x with
  | S754_zero _ => Some 0
  | S754_finite s m e =>
      let a := if 0 <=? e then Z.shiftl (Z.pos m) e
               else Z.shiftr (Z.pos m + 2 ^ (- e - 1)) (- e) in
      Some (if s then - a else a)
  | S754_infinity _ | S754_nan => None
  end.

Definition spec_new_size (total_cache_size total_bytes_loaded : Z) (d : cache_data_t)
    : option Z :=
  match round_double (size_share total_cache_size total_bytes_loaded d) with
  | Some r => Some (Z.max 0 (bytes_loaded d + old_size d - r))
  | None => None
  end.

(** ** The evicter *)

(** Modelled from the spec: [alt::evicter_t] (buffer_cache/alt/evicter.hpp
    is not among the sources). "The core only needs: current memory limit,
    bytes loaded since the last snapshot, current in-memory footprint, and a
    setter for the memory limit. Its internal eviction policy is irrelevant
    here." The three accessors read the evicter and the only law is that
    the setter sets the limit; what [update_memory_limit] does to the
    footprint and to the load counter is left to the instance. The results
    of the accessors are reduced to [uint64_t] where the balancer reads
    them. *)
Class Evicter (E : Type) : Type := {
  get_memory_limit : E -> Z;
  get_bytes_loaded : E -> Z;
  in_memory_size : E -> Z;
  update_memory_limit : Z -> E -> E;
  get_update_memory_limit :
    forall n e, get_memory_limit (update_memory_limit n e) = n
}.

(** An evicter that evicts down to its new limit at once. *)
Record simple_evicter : Type := {
  limit : Z;
  loaded : Z;
  in_memory : Z
}.

#[export] Instance simple_evicter_ops : Evicter simple_evicter := {|
  get_memory_limit := limit;
  get_bytes_loaded := loaded;
  in_memory_size := in_memory;
  update_memory_limit := fun n e =>
    {| limit := n; loaded := 0; in_memory := Z.min (in_memory e) n |};
  get_update_memory_limit := fun n e => eq_refl
|}.

(** ** The balancer *)

(** Modelled from the spec: the declaration of [thread_info_t]
    (cache_balancer.hpp is not among the sources): "[access_count: u64]",
    "[evicters]: set of weak-reference-to-Evicter" (a [std::set] of
    pointers, lines 94 and 179) and "[mutex]: guards [evicters]", which has
    no content here. *)
Record thread_info_t : Type := {
  evicters : gset evicter_ptr;
  access_count : Z
}.

(** Modelled from the spec: the declaration of
    [alt_cache_balancer_dummy_value_t] (cache_balancer.hpp is not among the
    sources), the "rebalance request" that line 79 enqueues; it carries
    nothing. *)
Inductive alt_cache_balancer_dummy_value_t : Type := dummy_value.

(** Modelled from the spec: the declaration of [alt_cache_balancer_t]
    (cache_balancer.hpp is not among the sources). The fields are those of
    lines 22-28: "[total_cache_size: u64]", "[last_rebalance_time]:
    timestamp" (microseconds, compared as [uint64_t] in line 62),
    "[read_ahead_ok: bool]", "[per_thread]: array[N] of ThreadInfo", and
    the "single-flight queue" [pool_queue], which holds the requests not
    yet taken by the one coroutine of [rebalance_pool]; the timer has no
    content here. *)
Record alt_cache_balancer_t : Type := {
  total_cache_size : Z;
  last_rebalance_time : Z;
  read_ahead_ok : bool;
  thread_info : list thread_info_t;
  pool_queue : list alt_cache_balancer_dummy_value_t
}.

(** lines 22-28 *)
Definition new_balancer (_total_cache_size : Z) (num_threads : nat) : alt_cache_balancer_t :=
  {| total_cache_size := _total_cache_size;
     last_rebalance_time := 0;
     read_ahead_ok := true;
     thread_info := replicate num_threads {| evicters := ∅; access_count := 0 |};
     pool_queue := [] |}.

Definition set_thread_info (t : list thread_info_t) (b : alt_cache_balancer_t)
    : alt_cache_balancer_t :=
  {| total_cache_size := total_cache_size b;
     last_rebalance_time := last_rebalance_time b;
     read_ahead_ok := read_ahead_ok b;
     thread_info := t;
     pool_queue := pool_queue b |}.

Definition set_read_ahead_ok (r : bool) (b : alt_cache_balancer_t) : alt_cache_balancer_t :=
  {| total_cache_size := total_cache_size b;
     last_rebalance_time := last_rebalance_time b;
     read_ahead_ok := r;
     thread_info := thread_info b;
     pool_queue := pool_queue b |}.

(** lines 34-40; [None] is the failed [guarantee]. [index] is the thread
    of the caller. *)
Definition add_evicter (index : nat) (p : evicter_ptr) (b : alt_cache_balancer_t)
    : option alt_cache_balancer_t :=
  match thread_info b !! index with
  | Some info =>
      if decide (p ∈ evicters info) then None
      else Some (set_thread_info
                   (<[index := {| evicters := {[p]} ∪ evicters info;
                                  access_count := access_count info |}]> (thread_info b)) b)
  | None => None
  end.

(** lines 42-48 *)
Definition remove_evicter (index : nat) (p : evicter_ptr) (b : alt_cache_balancer_t)
    : option alt_cache_balancer_t :=
  match thread_info b !! index with
  | Some info =>
      if decide (p ∈ evicters info)
      then Some (set_thread_info
                   (<[index := {| evicters := evicters info ∖ {[p]};
                                  access_count := access_count info |}]> (thread_info b)) b)
      else None
  | None => None
  end.

(** lines 50-52 *)
Definition notify_access (index : nat) (b : alt_cache_balancer_t) : alt_cache_balancer_t :=
  match thread_info b !! index with
  | Some info =>
      set_thread_info
        (<[index := {| evicters := evicters info;
                       access_count := u64 (access_count info + 1) |}]> (thread_info b)) b
  | None => b
  end.

(** lines 63-68 *)
Definition total_accesses (threads : list thread_info_t) : Z :=
  foldl (fun total info => u64 (total + access_count info)) 0 threads.

(** lines 75-79 *)
Definition start_rebalance (now : Z) (b : alt_cache_balancer_t) : alt_cache_balancer_t :=
  {| total_cache_size := total_cache_size b;
     last_rebalance_time := now;
     read_ahead_ok := read_ahead_ok b;
     thread_info := thread_info b;
     pool_queue := pool_queue b ++ [dummy_value] |}.

(** lines 54-80; [now] is the value of [current_microtime()]. *)
Definition on_ring (now : Z) (b : alt_cache_balancer_t) : alt_cache_balancer_t :=
  if now <? u64 (last_rebalance_time b + u64 (rebalance_timeout_ms * 1000)) then
    if total_accesses (thread_info b) <? rebalance_access_count_threshold then b
    else start_rebalance now b
  else start_rebalance now b.

(** lines 161-167 *)
Definition sum_cache_in_use (cache_in_use : list Z) : Z :=
  foldl (fun cache_usage u => u64 (cache_usage + u)) 0 cache_in_use.

Definition update_read_ahead_ok (total_cache_size : Z) (read_ahead_ok : bool)
    (cache_in_use : list Z) : bool :=
  if read_ahead_ok then
    u64 (sum_cache_in_use cache_in_use * read_ahead_ratio_denominator)
      <? u64 (total_cache_size * read_ahead_ratio_numerator)
  else read_ahead_ok.

(** [std::set] is walked in the order of the pointers. *)
Definition in_order (s : gset evicter_ptr) : list evicter_ptr :=
  merge_sort N.le (elements s).

(** [pmap(n, f)]: [f 0], ..., [f (n - 1)], here one after the other; the
    calls of the pass touch one thread each. *)
Definition pmap {S : Type} (n : nat) (f : nat -> S -> S) (s : S) : S :=
  foldl (fun s i => f i s) s (seq 0 n).

Section Balancer.
Context {E : Type} `{Evicter E}.

(** The evicters, by address, and the balancer. *)
Record world : Type := {
  evicter_at : evicter_ptr -> E;
  balancer : alt_cache_balancer_t
}.

(** lines 16-20 *)
Definition make_cache_data (heap : evicter_ptr -> E) (_evicter : evicter_ptr) : cache_data_t :=
  {| evicter := _evicter;
     new_size := 0;
     old_size := u64 (get_memory_limit (heap _evicter));
     bytes_loaded := u64 (get_bytes_loaded (heap _evicter)) |}.

(** lines 101-105 *)
Fixpoint snapshot_thread (heap : evicter_ptr -> E) (total_bytes_loaded : Z)
    (current_evicters : list evicter_ptr) : list cache_data_t * Z :=
  match current_evicters with
  | [] => ([], total_bytes_loaded)
  | j :: rest =>
      let data := make_cache_data heap j in
      let '(v, t) := snapshot_thread heap (u64 (total_bytes_loaded + bytes_loaded data)) rest in
      (data :: v, t)
  end.

(** lines 93-106 *)
Fixpoint snapshot (heap : evicter_ptr -> E) (total_evicters total_bytes_loaded : Z)
    (threads : list thread_info_t) : list (list cache_data_t) * Z * Z :=
  match threads with
  | [] => ([], total_evicters, total_bytes_loaded)
  | info :: rest =>
      let current_evicters := in_order (evicters info) in
      let total_evicters := u64 (total_evicters + Z.of_nat (length current_evicters)) in
      let '(v, total_bytes_loaded) :=
        snapshot_thread heap total_bytes_loaded current_evicters in
      let '(data, te, tbl) := snapshot heap total_evicters total_bytes_loaded rest in
      (v :: data, te, tbl)
  end.

(** The records that the snapshot takes of one thread. *)
Definition snapshot_data (heap : evicter_ptr -> E) (info : thread_info_t)
    : list cache_data_t :=
  map (make_cache_data heap) (in_order (evicters info)).

(** The footprints of the evicters of [sizes], each read as soon as its
    limit is set. *)
Definition footprint (heap : evicter_ptr -> E) (sizes : list cache_data_t) : Z :=
  foldr (fun it acc =>
           in_memory_size (update_memory_limit (new_size it) (heap (evicter it))) + acc)
        0 sizes.

(** lines 186-194 *)
Fixpoint apply_sizes (registered : gset evicter_ptr) (heap : evicter_ptr -> E)
    (total_cache_usage : Z) (sizes : list cache_data_t) : (evicter_ptr -> E) * Z :=
  match sizes with
  | [] => (heap, total_cache_usage)
  | it :: rest =>
      if decide (evicter it ∈ registered) then
        let heap1 :=
          <[evicter it := update_memory_limit (new_size it) (heap (evicter it))]> heap in
        apply_sizes registered heap1
          (u64 (total_cache_usage + in_memory_size (heap1 (evicter it)))) rest
      else apply_sizes registered heap total_cache_usage rest
  end.

(** lines 172-198, on the evicters and the [thread_info_t] of thread
    [index]; the results are the evicters, the [thread_info_t] and
    [cache_in_use[index]]. *)
Definition apply_rebalance (heap : evicter_ptr -> E) (info : thread_info_t)
    (sizes : list cache_data_t) : (evicter_ptr -> E) * thread_info_t * Z :=
  let '(heap', total_cache_usage) := apply_sizes (evicters info) heap 0 sizes in
  (heap', {| evicters := evicters info; access_count := 0 |}, total_cache_usage).

Definition apply_rebalance_to_thread (index : nat) (new_sizes : list (list cache_data_t))
    (s : world * list Z) : world * list Z :=
  let '(w, cache_in_use) := s in
  match thread_info (balancer w) !! index, new_sizes !! index with
  | Some info, Some sizes =>
      let '(heap', info', total_cache_usage) := apply_rebalance (evicter_at w) info sizes in
      ({| evicter_at := heap';
          balancer := set_thread_info (<[index := info']> (thread_info (balancer w)))
                        (balancer w) |},
       <[index := total_cache_usage]> cache_in_use)
  | _, _ => s
  end.

(** lines 154-156: the dispatch. The calls of [pmap] run side by side in
    the source; each touches the [thread_info_t], the evicters and the
    element of [cache_in_use] of its own thread. *)
Definition dispatch (sizes : list (list cache_data_t)) (s : world * list Z)
    : world * list Z :=
  pmap (length sizes) (fun i => apply_rebalance_to_thread i sizes) s.

(** lines 86-87. [init] leaves the elements unset; every thread sets its
    own in line 183 before line 163 reads it. *)
Definition new_cache_in_use (b : alt_cache_balancer_t) : list Z :=
  replicate (length (thread_info b)) 0.

(** lines 158-168: the latch. *)
Definition latch (s : world * list Z) : world :=
  let '(w, cache_in_use) := s in
  let b := balancer w in
  {| evicter_at := evicter_at w;
     balancer := set_read_ahead_ok
                   (update_read_ahead_ok (total_cache_size b) (read_ahead_ok b) cache_in_use)
                   b |}.

(** What the other threads do to the evicters, the registrations and the
    access counts while the pass waits. *)
Definition interference : Type :=
  (evicter_ptr -> E) * list thread_info_t -> (evicter_ptr -> E) * list thread_info_t.

Definition interfere (f : interference) (w : world) : world :=
  let '(heap, threads) := f (evicter_at w, thread_info (balancer w)) in
  {| evicter_at := heap; balancer := set_thread_info threads (balancer w) |}.

(** lines 82-170. [others] acts between the snapshot and the dispatch;
    [None] means that the loop of lines 132-151 outlasts [fuel]. *)
Definition coro_pool_callback (fuel : nat) (others : interference) (w : world)
    : option world :=
  let b := balancer w in
  let cache_in_use := new_cache_in_use b in
  let '(per_thread_data, total_evicters, total_bytes_loaded) :=
    snapshot (evicter_at w) 0 0 (thread_info b) in
  if (0 <? total_cache_size b) && (0 <? total_evicters) then
    match new_cache_sizes fuel (total_cache_size b) total_evicters total_bytes_loaded
            per_thread_data with
    | Some sizes => Some (latch (dispatch sizes (interfere others w, cache_in_use)))
    | None => None
    end
  else Some w.

(** What happens to a balancer during its life. *)
Inductive event : Type :=
  | Ring (now : Z)
  | Rebalance (fuel : nat) (others : interference)
  | Add (index : nat) (p : evicter_ptr)
  | Remove (index : nat) (p : evicter_ptr)
  | Access (index : nat).

Definition with_balancer (w : world) (b : alt_cache_balancer_t) : world :=
  {| evicter_at := evicter_at w; balancer := b |}.

Definition run_event (ev : event) (w : world) : option world :=
  match ev with
  | Ring now => Some (with_balancer w (on_ring now (balancer w)))
  | Rebalance fuel others => coro_pool_callback fuel others w
  | Add index p => with_balancer w <$> add_evicter index p (balancer w)
  | Remove index p => with_balancer w <$> remove_evicter index p (balancer w)
  | Access index => Some (with_balancer w (notify_access index (balancer w)))
  end.

Fixpoint run_events (evs : list event) (w : world) : option world :=
  match evs with
  | [] => Some w
  | ev :: rest =>
      match run_event ev w with
      | Some w' => run_events rest w'
      | None => None
      end
  end.

(** The world after [evs], or [w] when a [guarantee] fails or a pass
    runs out of fuel. *)
Definition after (evs : list event) (w : world) : world :=
  match run_events evs w with
  | Some w' => w'
  | None => w
  end.
End Balancer.

Arguments world : clear implicits.
Arguments interference : clear implicits.
Arguments event : clear implicits.

(** The exact sums that [total_accesses] and [sum_cache_in_use] reduce. *)
Definition sum_access_counts (threads : list thread_info_t) : Z :=
  foldr (fun info acc => access_count info + acc) 0 threads.

Definition sum_usage (cache_in_use : list Z) : Z :=
  foldr Z.add 0 cache_in_use.

(** ** Sequences of operations, counts and sums

    What the statements about several operations, about all the evicters
    or about all the records are written with. *)

(** The accesses of the threads [indices], one after the other. *)
Definition notify_accesses (indices : list nat) (b : alt_cache_balancer_t)
    : alt_cache_balancer_t :=
  foldl (fun b index => notify_access index b) b indices.

(** The ticks of the timer at the times [nows]. *)
Definition on_rings (nows : list Z) (b : alt_cache_balancer_t) : alt_cache_balancer_t :=
  foldl (fun b now => on_ring now b) b nows.


(** The number of the registered evicters. *)
Definition count_evicters (threads : list thread_info_t) : nat :=
  sum_list (map (fun info => size (evicters info)) threads).

(** The registered evicters, thread by thread, in the order of the
    snapshot. *)
Definition registered_evicters (threads : list thread_info_t) : list evicter_ptr :=
  concat (map (fun info => in_order (evicters info)) threads).

(** No evicter is registered with two threads. *)
Definition one_thread_each (threads : list thread_info_t) : Prop :=
  forall i j info info', i <> j ->
    threads !! i = Some info -> threads !! j = Some info' -> evicters info ## evicters info'.

(** The sum of the memory limits of the evicters [ptrs]. *)
Definition sum_memory_limits {E : Type} `{Evicter E} (heap : evicter_ptr -> E)
    (ptrs : list evicter_ptr) : Z :=
  foldr (fun p acc => get_memory_limit (heap p) + acc) 0 ptrs.

(** A [thread_info_t] once its thread has applied a rebalance (line 197). *)
Definition reset_access_count (info : thread_info_t) : thread_info_t :=
  {| evicters := evicters info; access_count := 0 |}.

(** [extra_bytes > 0] spread over the records [l]: every record gets the
    quotient by the number of the records, and the first ones one byte of
    the remainder each. *)
Definition spread_evenly (extra_bytes : Z) (l : list cache_data_t) : list cache_data_t :=
  let n := Z.of_nat (length l) in
  imap (fun i d =>
          set_new_size (new_size d + extra_bytes / n +
                        (if Z.of_nat i <? extra_bytes mod n then 1 else 0)) d) l.

(** A record after the loop that distributes a negative rounding error,
    against the record before it. *)
Definition lowered (d d' : cache_data_t) : Prop :=
  evicter d' = evicter d /\ old_size d' = old_size d /\ bytes_loaded d' = bytes_loaded d /\
  0 <= new_size d' <= new_size d.

(** ** Example states *)

Definition no_evicter : simple_evicter := {| limit := 0; loaded := 0; in_memory := 0 |}.

Definition evicters_of (l : list (evicter_ptr * simple_evicter)) (p : evicter_ptr)
    : simple_evicter :=
  match list_find (fun x => x.1 = p) l with
  | Some (_, (_, e)) => e
  | None => no_evicter
  end.

Definition balancer_of (tcs : Z) (threads : list thread_info_t) : alt_cache_balancer_t :=
  {| total_cache_size := tcs; last_rebalance_time := 0; read_ahead_ok := true;
     thread_info := threads; pool_queue := [] |}.

(** Two evicters on two threads: A with limit 600 and 300 bytes loaded, B
    with limit 400 and 100 bytes loaded, for a cache of 1000 bytes, of
    which 580 + 340 = 920 are in use. *)
Definition two_evicters : world simple_evicter :=
  {| evicter_at :=
       evicters_of [(1%N, {| limit := 600; loaded := 300; in_memory := 580 |});
                    (2%N, {| limit := 400; loaded := 100; in_memory := 340 |})];
     balancer :=
       balancer_of 1000 [ {| evicters := {[ 1%N ]}; access_count := 7 |};
                          {| evicters := {[ 2%N ]}; access_count := 3 |} ] |}.

(** The same with one more byte loaded by A. *)
Definition record_A' : cache_data_t :=
  {| evicter := 1%N; new_size := 0; old_size := 600; bytes_loaded := 301 |}.

(** Four idle evicters with limits of [2 ^ 62] bytes, for a cache of 1000
    bytes. *)
Definition four_huge_evicters : world simple_evicter :=
  {| evicter_at := fun _ => {| limit := 2 ^ 62; loaded := 0; in_memory := 0 |};
     balancer :=
       balancer_of 1000 [ {| evicters := {[ 1%N; 2%N ]}; access_count := 0 |};
                          {| evicters := {[ 3%N; 4%N ]}; access_count := 0 |} ] |}.

Definition records_of_four_huge_evicters : list (list cache_data_t) :=
  [[ {| evicter := 1%N; new_size := 0; old_size := 2 ^ 62; bytes_loaded := 0 |};
     {| evicter := 2%N; new_size := 0; old_size := 2 ^ 62; bytes_loaded := 0 |} ];
   [ {| evicter := 3%N; new_size := 0; old_size := 2 ^ 62; bytes_loaded := 0 |};
     {| evicter := 4%N; new_size := 0; old_size := 2 ^ 62; bytes_loaded := 0 |} ]].

Definition sizes_of_four_huge_evicters : list (list cache_data_t) :=
  map (map (fun d => set_new_size (2 ^ 62 + 250) d)) records_of_four_huge_evicters.

(** One idle evicter whose limit is the whole cache, of [2 ^ 63] bytes. *)
Definition one_evicter_of_2_63 : world simple_evicter :=
  {| evicter_at := fun _ => {| limit := 2 ^ 63; loaded := 0; in_memory := 0 |};
     balancer := balancer_of (2 ^ 63) [ {| evicters := {[ 1%N ]}; access_count := 0 |} ] |}.

Definition records_of_one_evicter_of_2_63 : list (list cache_data_t) :=
  [[ {| evicter := 1%N; new_size := 0; old_size := 2 ^ 63; bytes_loaded := 0 |} ]].

(** A record of size 0, for a cache of [2 ^ 63] bytes. *)
Definition empty_record : cache_data_t :=
  {| evicter := 1%N; new_size := 0; old_size := 0; bytes_loaded := 0 |}.

(** One idle evicter that uses half of its cache of [2 ^ 61] bytes. *)
Definition half_used_2_61 : world simple_evicter :=
  {| evicter_at := fun _ => {| limit := 2 ^ 61; loaded := 0; in_memory := 2 ^ 60 |};
     balancer := balancer_of (2 ^ 61) [ {| evicters := {[ 1%N ]}; access_count := 0 |} ] |}.

Definition records_of_half_used_2_61 : list (list cache_data_t) :=
  [[ {| evicter := 1%N; new_size := 0; old_size := 2 ^ 61; bytes_loaded := 0 |} ]].

Definition sizes_of_half_used_2_61 : list (list cache_data_t) :=
  [[ {| evicter := 1%N; new_size := 2 ^ 61; old_size := 2 ^ 61; bytes_loaded := 0 |} ]].

(** A cache without evicters. *)
Definition no_evicters : world simple_evicter :=
  {| evicter_at := fun _ => no_evicter;
     balancer := balancer_of 1000 [ {| evicters := ∅; access_count := 5 |} ] |}.

(** A balancer whose last rebalance was at the last microsecond that
    [uint64_t] can hold. *)
Definition balancer_at_the_end_of_time : alt_cache_balancer_t :=
  {| total_cache_size := 1000; last_rebalance_time := 2 ^ 64 - 1; read_ahead_ok := true;
     thread_info := [ {| evicters := ∅; access_count := 0 |} ]; pool_queue := [] |}.

(** Two idle evicters whose limits fill the cache. *)
Definition idle_evicters : world simple_evicter :=
  {| evicter_at :=
       evicters_of [(1%N, {| limit := 600; loaded := 0; in_memory := 580 |});
                    (2%N, {| limit := 400; loaded := 0; in_memory := 340 |})];
     balancer :=
       balancer_of 1000 [ {| evicters := {[ 1%N ]}; access_count := 0 |};
                          {| evicters := {[ 2%N ]}; access_count := 0 |} ] |}.

(** [two_evicters] once read-ahead has been stopped. *)
Definition read_ahead_stopped : world simple_evicter :=
  {| evicter_at := evicter_at two_evicters;
     balancer := set_read_ahead_ok false (balancer two_evicters) |}.

(** The records of [two_evicters], before and after the sizing. *)
Definition records_of_two_evicters : list (list cache_data_t) :=
  [[ {| evicter := 1%N; new_size := 0; old_size := 600; bytes_loaded := 300 |} ];
   [ {| evicter := 2%N; new_size := 0; old_size := 400; bytes_loaded := 100 |} ]].

Definition sizes_of_two_evicters : list (list cache_data_t) :=
  [[ {| evicter := 1%N; new_size := 660; old_size := 600; bytes_loaded := 300 |} ];
   [ {| evicter := 2%N; new_size := 340; old_size := 400; bytes_loaded := 100 |} ]].

(** The sizes of [two_evicters] when the formula has left one byte too
    many. *)
Definition sizes_before_rounding : list (list cache_data_t) :=
  [[ {| evicter := 1%N; new_size := 661; old_size := 600; bytes_loaded := 301 |} ];
   [ {| evicter := 2%N; new_size := 340; old_size := 400; bytes_loaded := 100 |} ]].

Definition records_of_idle_evicters : list (list cache_data_t) :=
  [[ {| evicter := 1%N; new_size := 0; old_size := 600; bytes_loaded := 0 |} ];
   [ {| evicter := 2%N; new_size := 0; old_size := 400; bytes_loaded := 0 |} ]].

(** [two_evicters] once A has been unregistered. *)
Definition two_evicters_without_A : world simple_evicter :=
  {| evicter_at := evicter_at two_evicters;
     balancer :=
       balancer_of 1000 [ {| evicters := ∅; access_count := 7 |};
                          {| evicters := {[ 2%N ]}; access_count := 3 |} ] |}.

(** No interference of the other threads. *)
Definition quiet {E : Type} : interference E := fun s => s.

(** A balancer of one thread on which 150 accesses have been counted. *)
Definition busy_balancer : alt_cache_balancer_t :=
  balancer_of 1000 [ {| evicters := ∅; access_count := 150 |} ].

(** The record of an evicter without a limit that has loaded 50 bytes. *)
Definition record_without_limit : cache_data_t :=
  {| evicter := 3%N; new_size := 0; old_size := 0; bytes_loaded := 50 |}.

(** ** Predicates of the proofs *)

(** What the dispatch keeps of the balancer [w] that it starts from, and
    the range of the usages that it collects. *)
Definition pass_frame {E : Type} (w : world E) (s : world E * list Z) : Prop :=
  total_cache_size (balancer s.1) = total_cache_size (balancer w) /\
  read_ahead_ok (balancer s.1) = read_ahead_ok (balancer w) /\
  Forall (fun u => 0 <= u < 2 ^ 64) s.2.

Definition nonneg_sizes (l : list cache_data_t) : Prop :=
  Forall (fun d => 0 <= new_size d) l.

Definition not_negative (x : double) : Prop :=
  forall m e, x <> S754_finite true m e.

Definition loop_inv (tcs e : Z) (l : list cache_data_t) : Prop :=
  nonneg_sizes l /\ sum_new_sizes l + e = tcs /\
  sum_new_sizes l < 2 ^ 63 /\ - 2 ^ 63 <= e.

Definition sized (tcs tbl : Z) (d : cache_data_t) : cache_data_t :=
  set_new_size (calculate_new_size tcs tbl d) d.

(** The fields that the snapshot fills hold [uint64_t] values. *)
Definition snapshot_fields (d : cache_data_t) : Prop :=
  0 <= old_size d < 2 ^ 64 /\ 0 <= bytes_loaded d < 2 ^ 64.

(** The result of a rounding whose operand is small enough: a zero or a
    finite number, finite when the operand is positive. *)
Definition rounded (lo hi : Z) (positive : bool) (x : double) : Prop :=
  match x with
  | S754_zero _ => positive = false
  | S754_finite _ m e => lo <= e <= hi /\ Z.pos m < 2 ^ 53
  | S754_infinity _ | S754_nan => False
  end.

Definition is_finite (x : double) : Prop :=
  match x with
  | S754_zero _ | S754_finite _ _ _ => True
  | S754_infinity _ | S754_nan => False
  end.

(** * Proofs *)

(** ** Machine integers *)

Lemma u64_range x : 0 <= u64 x < 2 ^ 64.
Proof. unfold u64. apply Z.mod_pos_bound. lia. Qed.

Lemma u64_id x : 0 <= x < 2 ^ 64 -> u64 x = x.
Proof. intros Hx. unfold u64. apply Z.mod_small. exact Hx. Qed.

Lemma i64_range x : - 2 ^ 63 <= i64 x < 2 ^ 63.
Proof.
  unfold i64. pose proof (Z.mod_pos_bound x (2 ^ 64) ltac:(lia)) as Hm.
  destruct (Z.ltb_spec (x mod 2 ^ 64) (2 ^ 63)); lia.
Qed.

Lemma i64_id x : - 2 ^ 63 <= x < 2 ^ 63 -> i64 x = x.
Proof.
  intros Hx. unfold i64.
  destruct (Z_lt_le_dec x 0) as [Hneg | Hpos].
  - replace (x mod 2 ^ 64) with (x + 2 ^ 64).
    + destruct (Z.ltb_spec (x + 2 ^ 64) (2 ^ 63)); lia.
    + apply Z.mod_unique with (q := -1); lia.
  - rewrite Z.mod_small by lia.
    destruct (Z.ltb_spec x (2 ^ 63)); lia.
Qed.

Lemma i64_wrap_high x : 2 ^ 63 <= x < 2 ^ 64 -> i64 x = x - 2 ^ 64.
Proof.
  intros Hx. unfold i64. rewrite Z.mod_small by lia.
  destruct (Z.ltb_spec x (2 ^ 63)); lia.
Qed.

Lemma u64_add_l x y : u64 (u64 x + y) = u64 (x + y).
Proof. unfold u64. apply Zplus_mod_idemp_l. Qed.

(** ** Magnitudes of the doubles *)

Lemma digits2_pos_bounds p :
  2 ^ (Z.pos (digits2_pos p) - 1) <= Z.pos p < 2 ^ Z.pos (digits2_pos p).
Proof.
  induction p as [p IH|p IH|]; simpl digits2_pos.
  - rewrite Pos2Z.inj_succ. replace (Z.succ (Z.pos (digits2_pos p)) - 1)
      with (Z.succ (Z.pos (digits2_pos p) - 1)) by lia.
    rewrite !Z.pow_succ_r by lia. lia.
  - rewrite Pos2Z.inj_succ. replace (Z.succ (Z.pos (digits2_pos p)) - 1)
      with (Z.succ (Z.pos (digits2_pos p) - 1)) by lia.
    rewrite !Z.pow_succ_r by lia. lia.
  - simpl. lia.
Qed.

Lemma Zdigits2_le m k : 0 <= m < 2 ^ k -> 0 <= k -> 0 <= Zdigits2 m <= k.
Proof.
  intros Hm Hk. destruct m as [|p|p]; simpl; [lia| |lia].
  pose proof (digits2_pos_bounds p) as [Hlo _].
  split; [lia|].
  destruct (Z_lt_le_dec k (Z.pos (digits2_pos p))) as [Hlt|]; [|assumption].
  assert (2 ^ k <= 2 ^ (Z.pos (digits2_pos p) - 1)) by (apply Z.pow_le_mono_r; lia).
  lia.
Qed.

Lemma shr_1_m mrs : 0 <= shr_m mrs -> shr_m (shr_1 mrs) = shr_m mrs / 2.
Proof.
  destruct mrs as [m r s]. simpl. intros Hm.
  rewrite <- Z.div2_div. destruct m as [|[p|p|]|p]; try reflexivity; lia.
Qed.

Lemma pow2_xO n : 2 ^ Z.pos n~0 = 2 ^ Z.pos n * 2 ^ Z.pos n.
Proof. rewrite <- Z.pow_add_r by lia. f_equal. lia. Qed.

Lemma pow2_xI n : 2 ^ Z.pos n~1 = 2 * (2 ^ Z.pos n * 2 ^ Z.pos n).
Proof.
  rewrite <- Z.pow_add_r by lia. rewrite <- Z.pow_succ_r by lia. f_equal. lia.
Qed.

Lemma iter_pos_shr_1_m n : forall mrs,
  0 <= shr_m mrs ->
  shr_m (SpecFloat.iter_pos shr_1 n mrs) = shr_m mrs / 2 ^ Z.pos n.
Proof.
  assert (Hpos : forall a k, 0 < k -> 0 <= a -> 0 <= a / k).
  { intros. apply Z.div_pos; lia. }
  assert (H2 : forall k, 0 < 2 ^ Z.pos k) by (intros; lia).
  induction n as [n IH|n IH|]; intros mrs Hm; simpl SpecFloat.iter_pos.
  - assert (H1 : 0 <= shr_m (shr_1 mrs)) by (rewrite shr_1_m by lia; apply Hpos; lia).
    pose proof (IH _ H1) as E1.
    assert (H3 : 0 <= shr_m (SpecFloat.iter_pos shr_1 n (shr_1 mrs))).
    { rewrite E1. apply Hpos; [apply H2|exact H1]. }
    rewrite (IH _ H3), E1, shr_1_m by lia.
    pose proof (H2 n).
    rewrite !Z.div_div by lia. rewrite pow2_xI. reflexivity.
  - pose proof (IH _ Hm) as E1.
    assert (H3 : 0 <= shr_m (SpecFloat.iter_pos shr_1 n mrs)).
    { rewrite E1. apply Hpos; [apply H2|exact Hm]. }
    rewrite (IH _ H3), E1.
    pose proof (H2 n).
    rewrite !Z.div_div by lia. rewrite pow2_xO. reflexivity.
  - rewrite shr_1_m by lia. reflexivity.
Qed.

Lemma fexp_eq x : fexp prec emax x = Z.max (x - 53) (-1074).
Proof. reflexivity. Qed.

Lemma shr_record_of_loc_m m l : shr_m (shr_record_of_loc m l) = m.
Proof. destruct l as [|[]]; reflexivity. Qed.

Lemma Zdigits2_bounds m :
  0 <= m -> m < 2 ^ Zdigits2 m /\ (0 < m -> 2 ^ (Zdigits2 m - 1) <= m) /\ 0 <= Zdigits2 m.
Proof.
  intros Hm. destruct m as [|p|p]; simpl; [lia| |lia].
  pose proof (digits2_pos_bounds p). lia.
Qed.

Lemma shr_fexp_bounds m e l D :
  0 <= m < 2 ^ D -> 0 <= D -> -1074 <= e ->
  0 <= shr_m (shr_fexp prec emax m e l).1 < 2 ^ 53 /\
  (0 < m -> 0 < shr_m (shr_fexp prec emax m e l).1) /\
  e <= (shr_fexp prec emax m e l).2 <= Z.max e (D + e - 53).
Proof.
  intros Hm HD He. unfold shr_fexp, shr. rewrite fexp_eq.
  destruct (Zdigits2_bounds m) as (Hhi & Hlo & Hd0); [lia|].
  pose proof (Zdigits2_le m D Hm HD) as HdD.
  set (d := Zdigits2 m) in *.
  assert (Hsmall : d <= 53 -> m < 2 ^ 53).
  { intros Hle. assert (2 ^ d <= 2 ^ 53) by (apply Z.pow_le_mono_r; lia). lia. }
  destruct (Z.max (d + e - 53) (-1074) - e) as [|p|p] eqn:Hn; simpl.
  - rewrite shr_record_of_loc_m. repeat split; lia.
  - assert (Hp : Z.pos p = d - 53) by lia.
    rewrite iter_pos_shr_1_m by (rewrite shr_record_of_loc_m; lia).
    rewrite shr_record_of_loc_m, Hp.
    assert (Hpow : 0 < 2 ^ (d - 53)) by (apply Z.pow_pos_nonneg; lia).
    assert (Hsplit : 2 ^ d = 2 ^ (d - 53) * 2 ^ 53).
    { rewrite <- Z.pow_add_r by lia. f_equal. lia. }
    assert (Hsplit' : 2 ^ (d - 1) = 2 ^ (d - 53) * 2 ^ 52).
    { rewrite <- Z.pow_add_r by lia. f_equal. lia. }
    repeat split; try lia.
    + apply Z.div_pos; lia.
    + apply Z.div_lt_upper_bound; lia.
    + intros Hpos. specialize (Hlo Hpos).
      assert (2 ^ 52 <= m / 2 ^ (d - 53)) by (apply Z.div_le_lower_bound; lia).
      lia.
  - rewrite shr_record_of_loc_m. repeat split; lia.
Qed.

Lemma round_nearest_even_bounds m l :
  m <= round_nearest_even m l <= m + 1.
Proof.
  unfold round_nearest_even. destruct l as [|[]]; try lia.
  destruct (Z.even m); lia.
Qed.

Lemma binary_round_aux_rounded s m e l D :
  0 <= m < 2 ^ D -> 0 <= D -> -1074 <= e -> Z.max e (D + e - 53) + 1 <= 971 ->
  rounded e (Z.max e (D + e - 53) + 1) (0 <? m) (binary_round_aux prec emax s m e l).
Proof.
  intros Hm HD He Hhi. unfold binary_round_aux.
  pose proof (shr_fexp_bounds m e l D Hm HD He) as (Hm1 & Hp1 & He1).
  destruct (shr_fexp prec emax m e l) as [mrs1 e1]. simpl in Hm1, Hp1, He1.
  pose proof (round_nearest_even_bounds (shr_m mrs1) (loc_of_shr_record mrs1)) as Hr.
  set (m1 := round_nearest_even (shr_m mrs1) (loc_of_shr_record mrs1)) in *.
  assert (Hm1' : 0 <= m1 < 2 ^ 54) by lia.
  pose proof (shr_fexp_bounds m1 e1 loc_Exact 54 Hm1' ltac:(lia) ltac:(lia))
    as (Hm2 & Hp2 & He2).
  destruct (shr_fexp prec emax m1 e1 loc_Exact) as [mrs2 e2]. simpl in Hm2, Hp2, He2.
  destruct (shr_m mrs2) as [|p|p] eqn:Hmrs; simpl.
  - destruct (Z.ltb_spec 0 m); [|reflexivity].
    assert (0 < 0) by (apply Hp2; lia). lia.
  - change (emax - prec) with 971.
    destruct (Z.leb_spec e2 971); simpl; lia.
  - lia.
Qed.

Lemma rounded_weaken lo hi lo' hi' b x :
  rounded lo hi b x -> lo' <= lo -> hi <= hi' -> rounded lo' hi' b x.
Proof. destruct x; simpl; auto. lia. Qed.

Lemma iter_xO_pow2 p k : Z.pos (Pos.iter xO p k) = Z.pos p * 2 ^ Z.pos k.
Proof.
  induction k as [|k IH] using Pos.peano_ind.
  - simpl. lia.
  - rewrite Pos.iter_succ, Pos2Z.inj_xO, IH, Pos2Z.inj_succ, Z.pow_succ_r by lia. lia.
Qed.

Lemma double_of_u64_rounded x :
  0 <= x < 2 ^ 64 -> rounded (-52) 12 (0 <? x) (double_of_u64 x).
Proof.
  intros Hx. unfold double_of_u64, binary_normalize.
  destruct x as [|p|p]; [reflexivity| |lia].
  change (0 <? Z.pos p) with true.
  unfold binary_round, shl_align. rewrite fexp_eq.
  pose proof (digits2_pos_bounds p) as [Hlo Hhi].
  set (d := Z.pos (digits2_pos p)) in *.
  assert (Hd : 1 <= d <= 64).
  { split; [unfold d; lia|]. apply (Zdigits2_le (Z.pos p) 64); lia. }
  replace (Z.max (d + 0 - 53) (-1074)) with (d - 53) by lia.
  destruct (d - 53 - 0) as [|k|k] eqn:Hk.
  - eapply rounded_weaken;
      [apply (binary_round_aux_rounded _ (Z.pos p) _ _ 64); lia|lia|lia].
  - eapply rounded_weaken;
      [apply (binary_round_aux_rounded _ (Z.pos p) _ _ 64); lia|lia|lia].
  - assert (Hlt : Z.pos (Pos.iter xO p k) < 2 ^ 53).
    { rewrite iter_xO_pow2. replace (Z.pos k) with (53 - d) by lia.
      assert (2 ^ 53 = 2 ^ d * 2 ^ (53 - d)).
      { rewrite <- Z.pow_add_r by lia. f_equal. lia. }
      assert (0 < 2 ^ (53 - d)) by (apply Z.pow_pos_nonneg; lia).
      nia. }
    eapply rounded_weaken;
      [apply (binary_round_aux_rounded _ (Z.pos (Pos.iter xO p k)) _ _ 53); lia|lia|lia].
Qed.

Lemma rounded_is_finite lo hi b x : rounded lo hi b x -> is_finite x.
Proof. destruct x; simpl; auto. Qed.

Lemma ddiv_is_finite bx x y :
  rounded (-52) 12 bx x -> rounded (-52) 12 true y -> is_finite (ddiv x y).
Proof.
  intros Hx Hy. unfold ddiv, SFdiv.
  destruct y as [sy|sy| |sy my ey]; simpl in Hy; try contradiction; try discriminate.
  destruct x as [sx|sx| |sx mx ex]; simpl in Hx; try contradiction; [exact I|].
  destruct Hx as [Hex Hmx], Hy as [Hey Hmy].
  unfold SFdiv_core_binary. rewrite fexp_eq.
  pose proof (Zdigits2_le (Z.pos mx) 53 ltac:(lia) ltac:(lia)) as Hd1.
  pose proof (Zdigits2_le (Z.pos my) 53 ltac:(lia) ltac:(lia)) as Hd2.
  set (d1 := Zdigits2 (Z.pos mx)) in *. set (d2 := Zdigits2 (Z.pos my)) in *.
  set (e' := Z.min (Z.max (d1 + ex - (d2 + ey) - 53) (-1074)) (ex - ey)).
  assert (He' : -1074 <= e' <= ex - ey) by lia.
  set (s := ex - ey - e').
  assert (Hs : 0 <= s) by lia.
  set (m' := match s with Z.pos _ => Z.shiftl (Z.pos mx) s | 0 => Z.pos mx | Z.neg _ => 0 end).
  assert (Hm' : 0 <= m' < 2 ^ (53 + s)).
  { assert (m' = Z.pos mx * 2 ^ s) as ->.
    { unfold m'. destruct s as [|k|k] eqn:Hks; [lia| |lia].
      apply Z.shiftl_mul_pow2. lia. }
    assert (0 < 2 ^ s) by (apply Z.pow_pos_nonneg; lia).
    rewrite Z.pow_add_r by lia. nia. }
  destruct (Z.div_eucl m' (Z.pos my)) as [q r] eqn:Hdiv.
  assert (Hq : q = m' / Z.pos my) by (unfold Z.div; rewrite Hdiv; reflexivity).
  assert (Hqb : 0 <= q < 2 ^ (53 + s)).
  { rewrite Hq. split; [apply Z.div_pos; lia|].
    apply Z.div_lt_upper_bound; [lia|]. nia. }
  eapply rounded_is_finite.
  apply (binary_round_aux_rounded _ q e' _ (53 + s)); try lia.
Qed.

Lemma size_share_no_load tcs d :
  0 <= old_size d < 2 ^ 64 -> 0 < tcs < 2 ^ 64 ->
  i64_of_double (size_share tcs 0 d) = 0.
Proof.
  intros Ho Ht. unfold size_share.
  pose proof (double_of_u64_rounded (old_size d) Ho) as Hx.
  pose proof (double_of_u64_rounded tcs ltac:(lia)) as Hy.
  replace (0 <? tcs) with true in Hy by (symmetry; apply Z.ltb_lt; lia).
  pose proof (ddiv_is_finite _ _ _ Hx Hy) as Hq.
  destruct (ddiv (double_of_u64 (old_size d)) (double_of_u64 tcs)); simpl in Hq;
    try contradiction; reflexivity.
Qed.

Lemma calculate_new_size_no_load tcs d :
  0 < tcs < 2 ^ 64 -> 0 <= old_size d < 2 ^ 63 -> bytes_loaded d = 0 ->
  calculate_new_size tcs 0 d = old_size d.
Proof.
  intros Ht Ho Hb. unfold calculate_new_size.
  rewrite size_share_no_load, Hb by lia.
  change (i64 (i64 0 - 0)) with 0. rewrite Z.add_0_l.
  rewrite i64_id by lia. rewrite u64_id by lia. lia.
Qed.

Lemma distribute_thread_zero delta v : distribute_thread delta 0 v = (0, v).
Proof. destruct v; reflexivity. Qed.

Lemma distribute_thread_app delta e v w :
  distribute_thread delta e (v ++ w) =
  let '(e1, v1) := distribute_thread delta e v in
  let '(e2, w2) := distribute_thread delta e1 w in (e2, v1 ++ w2).
Proof.
  revert e. induction v as [|d v IH]; intros e; simpl.
  - destruct (distribute_thread delta e w); reflexivity.
  - destruct (Z.eqb_spec e 0) as [->|Hne].
    + rewrite distribute_thread_zero. reflexivity.
    + destruct (adjust delta e d) as [e1 d1]. rewrite IH.
      destruct (distribute_thread delta e1 v) as [e2 r].
      destruct (distribute_thread delta e2 w) as [e3 r']. reflexivity.
Qed.

Lemma distribute_pass_records delta e data :
  distribute_thread delta e (records data) =
  let '(e', r) := distribute_pass delta e data in (e', records r).
Proof.
  revert e; induction data as [|v data IH]; intros e; simpl.
  - reflexivity.
  - unfold records in *. simpl. rewrite distribute_thread_app.
    destruct (Z.eqb_spec e 0) as [->|Hne].
    + rewrite !distribute_thread_zero. reflexivity.
    + destruct (distribute_thread delta e v) as [e1 v1]. rewrite IH.
      destruct (distribute_pass delta e1 data). reflexivity.
Qed.

Lemma sum_new_sizes_nonneg l : nonneg_sizes l -> 0 <= sum_new_sizes l.
Proof. induction 1; simpl; lia. Qed.

Lemma adjust_up delta e d :
  0 < delta <= e -> 0 <= new_size d -> new_size d + e < 2 ^ 63 ->
  adjust delta e d = (e - delta, set_new_size (new_size d + delta) d).
Proof.
  intros Hd Hn Hb. unfold adjust.
  rewrite (i64_id (new_size d)) by lia.
  rewrite (i64_id (new_size d + delta)) by lia.
  destruct (Z.leb_spec 0 (new_size d + delta)); [|lia].
  rewrite i64_id by lia. rewrite u64_id by lia. reflexivity.
Qed.

Lemma adjust_down delta e d :
  e <= delta < 0 -> - 2 ^ 63 <= e -> 0 <= new_size d < 2 ^ 63 ->
  adjust delta e d =
  if 0 <=? new_size d + delta
  then (e - delta, set_new_size (new_size d + delta) d)
  else (e + new_size d, set_new_size 0 d).
Proof.
  intros Hd He Hn. unfold adjust.
  rewrite (i64_id (new_size d)) by lia.
  rewrite (i64_id (new_size d + delta)) by lia.
  destruct (Z.leb_spec 0 (new_size d + delta)).
  - rewrite i64_id by lia. rewrite u64_id by lia. reflexivity.
  - rewrite i64_id by lia. reflexivity.
Qed.

Ltac finish_thread :=
  repeat split; simpl; try lia; try congruence; auto;
  try (constructor; [simpl; lia | assumption]).

Lemma distribute_thread_up delta l : forall e,
  0 < delta -> 0 <= e -> delta = 1 \/ delta * Z.of_nat (length l) <= e ->
  nonneg_sizes l -> sum_new_sizes l + e < 2 ^ 63 ->
  exists e' l', distribute_thread delta e l = (e', l') /\
    0 <= e' <= e /\ sum_new_sizes l' + e' = sum_new_sizes l + e /\
    nonneg_sizes l' /\ (l <> [] -> e <> 0 -> e' < e).
Proof.
  induction l as [|d l IH]; intros e Hd He Hk Hl Hb.
  - exists e, []. finish_thread.
  - simpl. destruct (Z.eqb_spec e 0) as [->|Hne].
    + exists 0, (d :: l). finish_thread.
    + inversion Hl as [|? ? Hd0 Hl']; subst.
      pose proof (sum_new_sizes_nonneg _ Hl') as Hs. simpl in Hb.
      assert (Hde : delta <= e).
      { destruct Hk as [->|Hk]; [lia|]. rewrite length_cons in Hk. nia. }
      assert (Hk' : delta = 1 \/ delta * Z.of_nat (length l) <= e - delta).
      { destruct Hk as [->|Hk]; [left; reflexivity|right].
        rewrite length_cons in Hk. nia. }
      rewrite adjust_up by lia.
      destruct (IH (e - delta)) as (e' & l' & Heq & Hr & Hc & Hn & _);
        [lia | lia | exact Hk' | exact Hl' | lia |].
      rewrite Heq. exists e', (set_new_size (new_size d + delta) d :: l').
      finish_thread.
Qed.

Lemma distribute_thread_down delta l : forall e,
  delta < 0 -> e <= 0 -> delta = -1 \/ - delta * Z.of_nat (length l) <= - e ->
  nonneg_sizes l -> sum_new_sizes l < 2 ^ 63 -> - 2 ^ 63 <= e ->
  exists e' l', distribute_thread delta e l = (e', l') /\
    e <= e' <= 0 /\ sum_new_sizes l' + e' = sum_new_sizes l + e /\
    nonneg_sizes l' /\ (e' = 0 \/ sum_new_sizes l = 0 \/ e < e').
Proof.
  induction l as [|d l IH]; intros e Hd He Hk Hl Hb Hlo.
  - exists e, []. finish_thread.
  - simpl. destruct (Z.eqb_spec e 0) as [->|Hne].
    + exists 0, (d :: l). finish_thread.
    + inversion Hl as [|? ? Hd0 Hl']; subst.
      pose proof (sum_new_sizes_nonneg _ Hl') as Hs. simpl in Hb.
      assert (Hde : e <= delta).
      { destruct Hk as [->|Hk]; [lia|]. rewrite length_cons in Hk. nia. }
      rewrite adjust_down by lia.
      destruct (Z.leb_spec 0 (new_size d + delta)) as [Hge|Hlt].
      * assert (Hk' : delta = -1 \/ - delta * Z.of_nat (length l) <= - (e - delta)).
        { destruct Hk as [->|Hk]; [left; reflexivity|right].
          rewrite length_cons in Hk. nia. }
        destruct (IH (e - delta)) as (e' & l' & Heq & Hr & Hc & Hn & Hp);
          [lia | lia | exact Hk' | exact Hl' | lia | lia |].
        rewrite Heq. exists e', (set_new_size (new_size d + delta) d :: l').
        finish_thread.
      * assert (Hk' : delta = -1 \/ - delta * Z.of_nat (length l) <= - (e + new_size d)).
        { destruct Hk as [->|Hk]; [left; reflexivity|right].
          rewrite length_cons in Hk. nia. }
        destruct (IH (e + new_size d)) as (e' & l' & Heq & Hr & Hc & Hn & Hp);
          [lia | lia | exact Hk' | exact Hl' | lia | lia |].
        rewrite Heq. exists e', (set_new_size 0 d :: l').
        finish_thread.
Qed.

(** ** Signs of the doubles *)

Lemma binary_round_aux_sign s m e l s' m' e' :
  binary_round_aux prec emax s m e l = S754_finite s' m' e' -> s' = s.
Proof.
  unfold binary_round_aux.
  destruct (shr_fexp prec emax m e l) as [mrs1 e1].
  destruct (shr_fexp prec emax _ e1 loc_Exact) as [mrs2 e2].
  destruct (shr_m mrs2); try discriminate.
  destruct (e2 <=? emax - prec)%Z; congruence.
Qed.

Lemma double_of_u64_not_negative x : 0 <= x -> not_negative (double_of_u64 x).
Proof.
  intros Hx m e. unfold double_of_u64, binary_normalize.
  destruct x as [|p|p]; [discriminate| |lia].
  unfold binary_round. destruct (shl_align _ _ _) as [mz ez].
  intros Heq. apply binary_round_aux_sign in Heq. discriminate.
Qed.

Lemma ddiv_not_negative x y : not_negative x -> not_negative y -> not_negative (ddiv x y).
Proof.
  intros Hx Hy m e. unfold ddiv, SFdiv.
  destruct x as [sx|sx| |sx mx ex], y as [sy|sy| |sy my ey]; try discriminate.
  destruct (SFdiv_core_binary _ _ _ _ _ _) as [[mz ez] lz].
  intros Heq. apply binary_round_aux_sign in Heq.
  destruct sx; [exact (Hx _ _ eq_refl)|].
  destruct sy; [exact (Hy _ _ eq_refl)|]. discriminate.
Qed.

Lemma dmul_not_negative x y : not_negative x -> not_negative y -> not_negative (dmul x y).
Proof.
  intros Hx Hy m e. unfold dmul, SFmul.
  destruct x as [sx|sx| |sx mx ex], y as [sy|sy| |sy my ey]; try discriminate.
  intros Heq. apply binary_round_aux_sign in Heq.
  destruct sx; [exact (Hx _ _ eq_refl)|].
  destruct sy; [exact (Hy _ _ eq_refl)|]. discriminate.
Qed.

Lemma size_share_not_negative tcs tbl d :
  0 <= tcs -> 0 <= tbl -> 0 <= old_size d -> not_negative (size_share tcs tbl d).
Proof.
  intros. unfold size_share.
  auto using dmul_not_negative, ddiv_not_negative, double_of_u64_not_negative.
Qed.

Lemma trunc_double_nonneg x t : not_negative x -> trunc_double x = Some t -> 0 <= t.
Proof.
  intros Hx. destruct x as [s|s| |s m e]; simpl; try discriminate.
  - intros [= <-]. lia.
  - destruct s; [destruct (Hx _ _ eq_refl)|].
    intros [= <-]. apply Z.shiftl_nonneg. lia.
Qed.

Lemma i64_of_double_cases x :
  not_negative x -> 0 <= i64_of_double x < 2 ^ 63 \/ i64_of_double x = INT64_MIN.
Proof.
  intros Hx. unfold i64_of_double.
  destruct (trunc_double x) as [t|] eqn:Ht; [|right; reflexivity].
  apply trunc_double_nonneg in Ht; [|exact Hx].
  destruct (Z.leb_spec INT64_MIN t); simpl; [|right; reflexivity].
  destruct (Z.ltb_spec t (2 ^ 63)); [left; lia|right; reflexivity].
Qed.

(** ** The sizes of the formula *)

Lemma calculate_new_size_exact tcs tbl d t :
  0 <= bytes_loaded d -> 0 <= old_size d -> bytes_loaded d + old_size d < 2 ^ 63 ->
  trunc_double (size_share tcs tbl d) = Some t -> 0 <= t < 2 ^ 63 ->
  calculate_new_size tcs tbl d = Z.max 0 (bytes_loaded d + old_size d - t).
Proof.
  intros Hb Ho Hs Ht Hr. unfold calculate_new_size, i64_of_double. rewrite Ht.
  unfold INT64_MIN.
  destruct (Z.leb_spec (- 2 ^ 63) t); [|lia].
  destruct (Z.ltb_spec t (2 ^ 63)); [|lia]. simpl.
  rewrite (i64_id (bytes_loaded d)) by lia.
  rewrite (i64_id (bytes_loaded d - t)) by lia.
  rewrite i64_id by lia. rewrite u64_id by lia. lia.
Qed.

Lemma calculate_new_size_bounds tcs tbl d :
  0 <= tcs -> 0 <= tbl ->
  0 <= bytes_loaded d -> 0 <= old_size d -> bytes_loaded d + old_size d < 2 ^ 63 ->
  0 <= calculate_new_size tcs tbl d <= old_size d + bytes_loaded d.
Proof.
  intros Ht Hl Hb Ho Hs. unfold calculate_new_size.
  destruct (i64_of_double_cases (size_share tcs tbl d)) as [Hc|Hc].
  { apply size_share_not_negative; assumption. }
  - rewrite (i64_id (bytes_loaded d)) by lia.
    rewrite (i64_id (bytes_loaded d - _)) by lia.
    rewrite i64_id by lia. rewrite u64_id by lia. lia.
  - rewrite Hc. unfold INT64_MIN.
    rewrite (i64_id (bytes_loaded d)) by lia.
    rewrite (i64_wrap_high (bytes_loaded d - - 2 ^ 63)) by lia.
    rewrite i64_id by lia. rewrite u64_id by lia. lia.
Qed.

(** ** One pass and the whole loop *)

Lemma rounding_delta_up te e :
  0 < te < 2 ^ 63 -> 0 < e < 2 ^ 63 ->
  0 < rounding_delta te e /\
  (rounding_delta te e = 1 \/ rounding_delta te e * te <= e).
Proof.
  intros Hte He. unfold rounding_delta, div_i64.
  rewrite (i64_id te) by lia.
  rewrite Z.quot_div_nonneg by lia.
  assert (Hq : 0 <= e / te <= e).
  { split; [apply Z.div_pos; lia|]. apply Z.div_le_upper_bound; nia. }
  rewrite i64_id by lia.
  destruct (Z.eqb_spec (e / te) 0) as [Hz|Hnz].
  - destruct (Z.ltb_spec e 0); [lia|]. split; [lia|left; reflexivity].
  - split; [lia|right]. rewrite Z.mul_comm. apply Z.mul_div_le. lia.
Qed.

Lemma rounding_delta_down te e :
  0 < te < 2 ^ 63 -> - 2 ^ 63 <= e < 0 ->
  rounding_delta te e < 0 /\
  (rounding_delta te e = -1 \/ - rounding_delta te e * te <= - e).
Proof.
  intros Hte He. unfold rounding_delta, div_i64.
  rewrite (i64_id te) by lia.
  assert (Hquot : Z.quot e te = - (- e / te)).
  { rewrite <- Z.quot_div_nonneg by lia. rewrite Z.quot_opp_l by lia. lia. }
  rewrite Hquot.
  assert (Hq : 0 <= - e / te <= - e).
  { split; [apply Z.div_pos; lia|]. apply Z.div_le_upper_bound; nia. }
  rewrite i64_id by lia.
  destruct (Z.eqb_spec (- (- e / te)) 0) as [Hz|Hnz].
  - destruct (Z.ltb_spec e 0); [|lia]. split; [lia|left; reflexivity].
  - split; [lia|right]. rewrite Z.opp_involutive, Z.mul_comm.
    apply Z.mul_div_le. lia.
Qed.

Lemma distribute_thread_length delta l : forall e,
  length (distribute_thread delta e l).2 = length l.
Proof.
  induction l as [|d l IH]; intros e; simpl; [reflexivity|].
  destruct (e =? 0); [reflexivity|].
  destruct (adjust delta e d) as [e1 d1]. specialize (IH e1).
  destruct (distribute_thread delta e1 l). simpl in *. congruence.
Qed.

Lemma distribute_pass_length delta data : forall e,
  length (records (distribute_pass delta e data).2) = length (records data).
Proof.
  intros e. pose proof (distribute_pass_records delta e data) as Hr.
  pose proof (distribute_thread_length delta (records data) e) as Hl.
  destruct (distribute_pass delta e data). rewrite Hr in Hl. exact Hl.
Qed.

Lemma distribute_pass_progress tcs te e data :
  0 < tcs < 2 ^ 63 -> te = Z.of_nat (length (records data)) -> 0 < te < 2 ^ 63 ->
  e <> 0 -> loop_inv tcs e (records data) ->
  exists e' data',
    distribute_pass (rounding_delta te e) e data = (e', data') /\
    loop_inv tcs e' (records data') /\ Z.abs e' < Z.abs e.
Proof.
  intros Htcs -> Hte' Hne (Hn & Hc & Hs & Hlo).
  set (te := Z.of_nat (length (records data))) in *.
  assert (Hte : te = Z.of_nat (length (records data))) by reflexivity.
  pose proof (sum_new_sizes_nonneg _ Hn) as Hs0.
  pose proof (distribute_pass_records (rounding_delta te e) e data) as Hr.
  destruct (distribute_pass (rounding_delta te e) e data) as [e' data'].
  exists e', data'. split; [reflexivity|].
  destruct (Z_lt_le_dec e 0) as [Hneg|Hpos].
  - destruct (rounding_delta_down te e) as [Hd Hk]; [lia|lia|].
    destruct (distribute_thread_down (rounding_delta te e) (records data) e)
      as (e1 & l1 & Heq & Hr1 & Hc1 & Hn1 & Hp1); try assumption; try lia.
    rewrite Heq in Hr. injection Hr as -> ->.
    unfold loop_inv. repeat split; try assumption; lia.
  - destruct (rounding_delta_up te e) as [Hd Hk]; [lia|lia|].
    destruct (distribute_thread_up (rounding_delta te e) (records data) e)
      as (e1 & l1 & Heq & Hr1 & Hc1 & Hn1 & Hp1); try assumption; try lia.
    rewrite Heq in Hr. injection Hr as -> ->.
    assert (records data <> []).
    { intros Hnil. rewrite Hnil in Hte. simpl in Hte. lia. }
    pose proof (sum_new_sizes_nonneg _ Hn1).
    specialize (Hp1 H Hne).
    unfold loop_inv. repeat split; try assumption; lia.
Qed.

Lemma distribute_rounding_error_done fuel te data :
  distribute_rounding_error fuel te 0 data = Some data.
Proof. destruct fuel; reflexivity. Qed.

Lemma distribute_rounding_error_step fuel te e data :
  e <> 0 ->
  distribute_rounding_error (S fuel) te e data =
  let '(e', r) := distribute_pass (rounding_delta te e) e data in
  distribute_rounding_error fuel te e' r.
Proof. intros Hne. simpl. destruct (Z.eqb_spec e 0); [contradiction|reflexivity]. Qed.

Lemma distribute_rounding_error_terminates tcs te :
  0 < tcs < 2 ^ 63 -> 0 < te < 2 ^ 63 ->
  forall fuel e data,
    te = Z.of_nat (length (records data)) -> loop_inv tcs e (records data) ->
    Z.abs e <= Z.of_nat fuel ->
    exists r, distribute_rounding_error fuel te e data = Some r /\
              loop_inv tcs 0 (records r).
Proof.
  intros Htcs Hte. induction fuel as [|fuel IH]; intros e data Hlen Hinv Hf.
  - assert (e = 0) as -> by lia. exists data. split; [reflexivity|exact Hinv].
  - destruct (Z.eq_dec e 0) as [->|Hne].
    + exists data. rewrite distribute_rounding_error_done. split; [reflexivity|exact Hinv].
    + rewrite distribute_rounding_error_step by exact Hne.
      destruct (distribute_pass_progress tcs te e data) as (e' & data' & Heq & Hinv' & Hlt);
        try assumption.
      pose proof (distribute_pass_length (rounding_delta te e) data e) as Hl.
      rewrite Heq in *. simpl in Hl.
      apply IH; [lia|exact Hinv'|lia].
Qed.

Lemma distribute_rounding_error_sound tcs te :
  0 < tcs < 2 ^ 63 -> 0 < te < 2 ^ 63 ->
  forall fuel e data r,
    te = Z.of_nat (length (records data)) -> loop_inv tcs e (records data) ->
    distribute_rounding_error fuel te e data = Some r ->
    loop_inv tcs 0 (records r).
Proof.
  intros Htcs Hte. induction fuel as [|fuel IH]; intros e data r Hlen Hinv Hrun.
  - simpl in Hrun. destruct (Z.eqb_spec e 0) as [->|]; [|discriminate].
    injection Hrun as <-. exact Hinv.
  - destruct (Z.eq_dec e 0) as [->|Hne].
    + rewrite distribute_rounding_error_done in Hrun. injection Hrun as <-. exact Hinv.
    + rewrite distribute_rounding_error_step in Hrun by exact Hne.
      destruct (distribute_pass_progress tcs te e data) as (e' & data' & Heq & Hinv' & Hlt);
        try assumption.
      pose proof (distribute_pass_length (rounding_delta te e) data e) as Hl.
      rewrite Heq in *. simpl in Hl.
      apply (IH e' data' r); [lia|exact Hinv'|exact Hrun].
Qed.


(** ** The sizing loops *)

Lemma calculate_thread_sizes_eq tcs tbl v : forall acc,
  0 <= acc < 2 ^ 64 ->
  calculate_thread_sizes tcs tbl acc v =
  (u64 (acc + sum_new_sizes (map (sized tcs tbl) v)), map (sized tcs tbl) v).
Proof.
  induction v as [|d v IH]; intros acc Hacc; simpl.
  - rewrite Z.add_0_r, u64_id by exact Hacc. reflexivity.
  - rewrite IH by apply u64_range. rewrite u64_add_l.
    f_equal. f_equal. rewrite <- Z.add_assoc. reflexivity.
Qed.

Lemma sum_new_sizes_app l1 l2 :
  sum_new_sizes (l1 ++ l2) = sum_new_sizes l1 + sum_new_sizes l2.
Proof. induction l1 as [|d l1 IH]; simpl; lia. Qed.

Lemma calculate_sizes_eq tcs tbl data : forall acc,
  0 <= acc < 2 ^ 64 ->
  calculate_sizes tcs tbl acc data =
  (u64 (acc + sum_new_sizes (map (sized tcs tbl) (records data))),
   map (map (sized tcs tbl)) data).
Proof.
  induction data as [|v data IH]; intros acc Hacc; simpl.
  - rewrite Z.add_0_r, u64_id by exact Hacc. reflexivity.
  - rewrite calculate_thread_sizes_eq by exact Hacc.
    rewrite IH by apply u64_range. rewrite u64_add_l.
    unfold records. simpl. rewrite map_app, sum_new_sizes_app.
    f_equal. f_equal. rewrite <- Z.add_assoc. reflexivity.
Qed.

Lemma records_map (f : cache_data_t -> cache_data_t) data :
  records (map (map f) data) = map f (records data).
Proof.
  unfold records. induction data as [|v data IH]; simpl; [reflexivity|].
  rewrite map_app, IH. reflexivity.
Qed.

Lemma sum_old_and_loaded_nonneg l :
  Forall snapshot_fields l -> 0 <= sum_old_and_loaded l.
Proof. induction 1 as [|d l [Ho Hb] Hwf IH]; simpl; lia. Qed.

Lemma sized_sum_bounds tcs tbl l :
  0 <= tcs -> 0 <= tbl -> Forall snapshot_fields l -> sum_old_and_loaded l < 2 ^ 63 ->
  nonneg_sizes (map (sized tcs tbl) l) /\
  sum_new_sizes (map (sized tcs tbl) l) <= sum_old_and_loaded l.
Proof.
  intros Ht Hl Hwf. induction Hwf as [|d l [Ho Hb] Hwf IH]; simpl; intros Hs.
  - split; [constructor|lia].
  - pose proof (sum_old_and_loaded_nonneg l Hwf) as Hrest.
    destruct IH as (Hn & Hle); [lia|].
    pose proof (calculate_new_size_bounds tcs tbl d Ht Hl) as Hc.
    split; [constructor; [simpl; lia|exact Hn]|lia].
Qed.

(** The sizes of the formula satisfy the invariant of the loop. *)
Lemma calculate_sizes_inv tcs tbl data total sizes :
  0 < tcs < 2 ^ 63 -> 0 <= tbl ->
  Forall snapshot_fields (records data) -> sum_old_and_loaded (records data) < 2 ^ 63 ->
  calculate_sizes tcs tbl 0 data = (total, sizes) ->
  loop_inv tcs (initial_extra_bytes tcs total) (records sizes) /\
  length (records sizes) = length (records data).
Proof.
  intros Htcs Htbl Hwf Hs. rewrite calculate_sizes_eq by lia. intros [= <- <-].
  rewrite records_map.
  destruct (sized_sum_bounds tcs tbl (records data)) as (Hn & Hle); try assumption; try lia.
  pose proof (sum_old_and_loaded_nonneg _ Hwf) as H0.
  pose proof (sum_new_sizes_nonneg _ Hn) as Hs0.
  unfold initial_extra_bytes. rewrite Z.add_0_l.
  rewrite (u64_id (sum_new_sizes _)) by lia.
  assert (Hi : i64 (u64 (tcs - sum_new_sizes (map (sized tcs tbl) (records data)))) =
               tcs - sum_new_sizes (map (sized tcs tbl) (records data))).
  { unfold i64, u64. rewrite Z.mod_mod by lia. apply (i64_id (tcs - _)). lia. }
  rewrite Hi. split; [|apply length_map].
  unfold loop_inv. repeat split; try assumption; lia.
Qed.

(** ** The snapshot *)

Section SnapshotFacts.
Context {E : Type} `{Evicter E}.

Lemma snapshot_thread_eq (heap : evicter_ptr -> E) ptrs : forall tbl,
  0 <= tbl < 2 ^ 64 ->
  snapshot_thread heap tbl ptrs =
  (map (make_cache_data heap) ptrs,
   u64 (tbl + sum_bytes_loaded (map (make_cache_data heap) ptrs))).
Proof.
  induction ptrs as [|p ptrs IH]; intros tbl Ht; simpl.
  - rewrite Z.add_0_r, u64_id by exact Ht. reflexivity.
  - rewrite IH by apply u64_range. rewrite u64_add_l.
    f_equal. f_equal. rewrite <- Z.add_assoc. reflexivity.
Qed.

Lemma sum_bytes_loaded_app l1 l2 :
  sum_bytes_loaded (l1 ++ l2) = sum_bytes_loaded l1 + sum_bytes_loaded l2.
Proof. induction l1 as [|d l1 IH]; simpl; lia. Qed.

Lemma snapshot_eq (heap : evicter_ptr -> E) threads : forall te tbl,
  0 <= te < 2 ^ 64 -> 0 <= tbl < 2 ^ 64 ->
  snapshot heap te tbl threads =
  (map (snapshot_data heap) threads,
   u64 (te + Z.of_nat (length (records (map (snapshot_data heap) threads)))),
   u64 (tbl + sum_bytes_loaded (records (map (snapshot_data heap) threads)))).
Proof.
  induction threads as [|info threads IH]; intros te tbl Hte Htbl; simpl.
  - rewrite !Z.add_0_r, !u64_id by assumption. reflexivity.
  - rewrite snapshot_thread_eq by exact Htbl.
    rewrite IH by apply u64_range. rewrite !u64_add_l.
    unfold records. simpl. rewrite length_app, sum_bytes_loaded_app.
    unfold snapshot_data. rewrite length_map, Nat2Z.inj_add, !Z.add_assoc.
    reflexivity.
Qed.

Lemma snapshot_fields_data (heap : evicter_ptr -> E) threads :
  Forall snapshot_fields (records (map (snapshot_data heap) threads)).
Proof.
  unfold records. induction threads as [|info threads IH]; simpl; [constructor|].
  apply Forall_app. split; [|exact IH].
  unfold snapshot_data. apply Forall_map, Forall_forall. intros p _.
  split; apply u64_range.
Qed.

Lemma snapshot_spec (heap : evicter_ptr -> E) threads data te tbl :
  snapshot heap 0 0 threads = (data, te, tbl) ->
  data = map (snapshot_data heap) threads /\
  te = u64 (Z.of_nat (length (records data))) /\
  tbl = u64 (sum_bytes_loaded (records data)) /\
  Forall snapshot_fields (records data).
Proof.
  rewrite snapshot_eq by lia. intros [= <- <- <-].
  repeat split. apply snapshot_fields_data.
Qed.
End SnapshotFacts.

(** ** The timer *)

Lemma total_accesses_from threads : forall total,
  0 <= total < 2 ^ 64 ->
  foldl (fun total info => u64 (total + access_count info)) total threads =
  u64 (total + sum_access_counts threads).
Proof.
  induction threads as [|info threads IH]; intros total Ht; simpl.
  - rewrite Z.add_0_r, u64_id by exact Ht. reflexivity.
  - rewrite IH by apply u64_range. rewrite u64_add_l, Z.add_assoc. reflexivity.
Qed.

Lemma total_accesses_exact threads :
  Forall (fun info => 0 <= access_count info) threads ->
  sum_access_counts threads < 2 ^ 64 ->
  total_accesses threads = sum_access_counts threads.
Proof.
  intros Hn Hs. unfold total_accesses. rewrite total_accesses_from by lia.
  rewrite Z.add_0_l. apply u64_id. split; [|exact Hs].
  clear Hs. induction Hn; simpl; lia.
Qed.

Lemma on_ring_read_ahead_ok now b : read_ahead_ok (on_ring now b) = read_ahead_ok b.
Proof.
  unfold on_ring.
  destruct (now <? _); [destruct (total_accesses _ <? _)|]; reflexivity.
Qed.

(** ** The latch *)

Lemma sum_cache_in_use_from l : forall usage,
  0 <= usage < 2 ^ 64 ->
  foldl (fun cache_usage u => u64 (cache_usage + u)) usage l = u64 (usage + sum_usage l).
Proof.
  induction l as [|u l IH]; intros usage Hu; simpl.
  - rewrite Z.add_0_r, u64_id by exact Hu. reflexivity.
  - rewrite IH by apply u64_range. rewrite u64_add_l, Z.add_assoc. reflexivity.
Qed.

Lemma sum_cache_in_use_exact l :
  Forall (fun u => 0 <= u) l -> sum_usage l < 2 ^ 64 -> sum_cache_in_use l = sum_usage l.
Proof.
  intros Hn Hs. unfold sum_cache_in_use. rewrite sum_cache_in_use_from by lia.
  rewrite Z.add_0_l. apply u64_id. split; [|exact Hs].
  clear Hs. induction Hn; simpl; lia.
Qed.

Section PassFacts.
Context {E : Type} `{Evicter E}.

(** ** Applying the sizes *)

Lemma apply_sizes_usage_range registered sizes : forall (heap : evicter_ptr -> E) usage,
  0 <= usage < 2 ^ 64 ->
  0 <= (apply_sizes registered heap usage sizes).2 < 2 ^ 64.
Proof.
  induction sizes as [|it sizes IH]; intros heap usage Hu; simpl; [exact Hu|].
  destruct (decide (evicter it ∈ registered)); apply IH; [apply u64_range|exact Hu].
Qed.

Lemma apply_sizes_other registered sizes p : forall (heap : evicter_ptr -> E) usage,
  p ∉ registered \/ p ∉ map evicter sizes ->
  (apply_sizes registered heap usage sizes).1 p = heap p.
Proof.
  induction sizes as [|it sizes IH]; intros heap usage Hp; simpl; [reflexivity|].
  assert (Hp' : p ∉ registered \/ p ∉ map evicter sizes).
  { destruct Hp as [Hp|Hp]; [left; exact Hp|right].
    intros Hin. apply Hp. simpl. right. exact Hin. }
  destruct (decide (evicter it ∈ registered)) as [Hreg|Hreg].
  - rewrite IH by exact Hp'. apply fn_lookup_insert_ne.
    intros <-. destruct Hp as [Hp|Hp]; [contradiction|].
    apply Hp. simpl. left.
  - apply IH. exact Hp'.
Qed.

Lemma footprint_ext (heap heap' : evicter_ptr -> E) sizes :
  (forall p, p ∈ map evicter sizes -> heap' p = heap p) ->
  footprint heap' sizes = footprint heap sizes.
Proof.
  induction sizes as [|it sizes IH]; intros Hext; simpl; [reflexivity|].
  rewrite Hext by (simpl; left). rewrite IH; [reflexivity|].
  intros p Hp. apply Hext. simpl. right. exact Hp.
Qed.

Lemma apply_sizes_spec registered sizes : forall (heap : evicter_ptr -> E) usage,
  NoDup (map evicter sizes) -> 0 <= usage < 2 ^ 64 ->
  (forall it, it ∈ sizes -> evicter it ∈ registered ->
     (apply_sizes registered heap usage sizes).1 (evicter it) =
     update_memory_limit (new_size it) (heap (evicter it))) /\
  (apply_sizes registered heap usage sizes).2 =
    u64 (usage + footprint heap (filter (fun it => evicter it ∈ registered) sizes)).
Proof.
  induction sizes as [|it sizes IH]; intros heap usage Hnd Hu; simpl.
  - split; [intros it Hin; inversion Hin|].
    rewrite Z.add_0_r, u64_id by exact Hu. reflexivity.
  - apply list.NoDup_cons in Hnd as [Hfresh Hnd].
    rewrite filter_cons.
    destruct (decide (evicter it ∈ registered)) as [Hreg|Hreg].
    + set (heap1 := <[evicter it := update_memory_limit (new_size it) (heap (evicter it))]> heap).
      destruct (IH heap1 (u64 (usage + in_memory_size (heap1 (evicter it)))) Hnd
                  (u64_range _)) as [IHl IHu].
      assert (Hsame : forall p, p ∈ map evicter sizes -> heap1 p = heap p).
      { intros p Hp. apply fn_lookup_insert_ne. intros <-. contradiction. }
      split.
      * intros it' Hin Hreg'. apply elem_of_cons in Hin as [->|Hin].
        -- rewrite apply_sizes_other by (right; exact Hfresh).
           apply fn_lookup_insert.
        -- rewrite IHl by assumption. f_equal. apply Hsame.
           apply list_elem_of_fmap. exists it'. split; [reflexivity|exact Hin].
      * rewrite IHu, u64_add_l. simpl. rewrite (footprint_ext heap heap1).
        -- unfold heap1 at 1. rewrite fn_lookup_insert. f_equal. lia.
        -- intros p Hp. apply Hsame.
           apply list_elem_of_fmap in Hp as (it' & -> & Hin).
           apply list_elem_of_filter in Hin as [_ Hin].
           apply list_elem_of_fmap. exists it'. split; [reflexivity|exact Hin].
    + destruct (IH heap usage Hnd Hu) as [IHl IHu]. split; [|exact IHu].
      intros it' Hin Hreg'. apply elem_of_cons in Hin as [->|Hin]; [contradiction|].
      apply IHl; assumption.
Qed.

(** ** The dispatch and what it leaves alone *)

Lemma apply_rebalance_to_thread_frame w index new_sizes s :
  pass_frame w s -> pass_frame w (apply_rebalance_to_thread index new_sizes s).
Proof.
  destruct s as [w1 cache_in_use]. intros (Ht & Hr & Hu).
  unfold apply_rebalance_to_thread.
  destruct (thread_info (balancer w1) !! index) as [info|]; [|repeat split; assumption].
  destruct (new_sizes !! index) as [sizes|]; [|repeat split; assumption].
  unfold apply_rebalance.
  pose proof (apply_sizes_usage_range (evicters info) sizes (evicter_at w1) 0 ltac:(lia)) as Hrange.
  destruct (apply_sizes (evicters info) (evicter_at w1) 0 sizes) as [heap' usage].
  repeat split; try assumption. simpl. apply Forall_insert; assumption.
Qed.

Lemma pmap_invariant {S : Type} (P : S -> Prop) n (f : nat -> S -> S) s :
  P s -> (forall i s, P s -> P (f i s)) -> P (pmap n f s).
Proof.
  intros Hs Hf. unfold pmap. revert s Hs.
  induction (seq 0 n) as [|i l IH]; intros s Hs; simpl; [exact Hs|].
  apply IH, Hf, Hs.
Qed.

Lemma dispatch_frame sizes (w : world E) s :
  pass_frame w s -> pass_frame w (dispatch sizes s).
Proof.
  intros Hs. unfold dispatch. apply pmap_invariant; [exact Hs|].
  intros i s'. apply apply_rebalance_to_thread_frame.
Qed.

Lemma pass_frame_start others (w : world E) :
  pass_frame w (interfere others w, new_cache_in_use (balancer w)).
Proof.
  unfold pass_frame, interfere. destruct (others _) as [heap threads]. simpl.
  repeat split. apply Forall_replicate. lia.
Qed.

Lemma latch_read_ahead_ok (s : world E * list Z) :
  read_ahead_ok (balancer (latch s)) =
  update_read_ahead_ok (total_cache_size (balancer s.1)) (read_ahead_ok (balancer s.1)) s.2.
Proof. destruct s as [w cache_in_use]. reflexivity. Qed.

(** The pass, once its sizes are known. *)
Lemma coro_pool_callback_full fuel others (w : world E) data te tbl sizes :
  snapshot (evicter_at w) 0 0 (thread_info (balancer w)) = (data, te, tbl) ->
  0 < total_cache_size (balancer w) -> 0 < te ->
  new_cache_sizes fuel (total_cache_size (balancer w)) te tbl data = Some sizes ->
  coro_pool_callback fuel others w =
  Some (latch (dispatch sizes (interfere others w, new_cache_in_use (balancer w)))).
Proof.
  intros Hsnap Htcs Hte Hsizes. unfold coro_pool_callback. rewrite Hsnap.
  destruct (Z.ltb_spec 0 (total_cache_size (balancer w))); [|lia].
  destruct (Z.ltb_spec 0 te); [|lia]. simpl. rewrite Hsizes. reflexivity.
Qed.

Lemma coro_pool_callback_early fuel others (w : world E) data te tbl :
  snapshot (evicter_at w) 0 0 (thread_info (balancer w)) = (data, te, tbl) ->
  total_cache_size (balancer w) = 0 \/ te = 0 ->
  coro_pool_callback fuel others w = Some w.
Proof.
  intros Hsnap Hzero. unfold coro_pool_callback. rewrite Hsnap.
  destruct Hzero as [-> | ->]; [reflexivity|].
  rewrite andb_false_r. reflexivity.
Qed.

Lemma coro_pool_callback_read_ahead_ok fuel others (w w' : world E) :
  coro_pool_callback fuel others w = Some w' ->
  read_ahead_ok (balancer w) = false -> read_ahead_ok (balancer w') = false.
Proof.
  unfold coro_pool_callback.
  destruct (snapshot _ _ _ _) as [[data te] tbl].
  destruct (_ && _); [|intros [= <-]; auto].
  destruct (new_cache_sizes _ _ _ _ _) as [sizes|]; [|discriminate].
  intros [= <-] Hoff. rewrite latch_read_ahead_ok.
  destruct (dispatch_frame sizes w _ (pass_frame_start others w)) as (_ & Hr & _).
  rewrite Hr, Hoff. reflexivity.
Qed.

Lemma run_event_read_ahead_ok ev (w w' : world E) :
  run_event ev w = Some w' ->
  read_ahead_ok (balancer w) = false -> read_ahead_ok (balancer w') = false.
Proof.
  destruct ev as [now|fuel others|index p|index p|index]; simpl.
  - intros [= <-]. simpl. rewrite on_ring_read_ahead_ok. auto.
  - apply coro_pool_callback_read_ahead_ok.
  - unfold add_evicter. destruct (thread_info (balancer w) !! index) as [info|]; [|discriminate].
    destruct (decide (p ∈ evicters info)); [discriminate|]. intros [= <-]. auto.
  - unfold remove_evicter. destruct (thread_info (balancer w) !! index) as [info|]; [|discriminate].
    destruct (decide (p ∈ evicters info)); [|discriminate]. intros [= <-]. auto.
  - intros [= <-]. unfold notify_access. simpl.
    destruct (thread_info (balancer w) !! index); auto.
Qed.

(** The evicters of a thread's records are distinct and registered. *)
Lemma snapshot_data_evicters (heap : evicter_ptr -> E) info :
  NoDup (map evicter (snapshot_data heap info)) /\
  forall p, p ∈ map evicter (snapshot_data heap info) <-> p ∈ evicters info.
Proof.
  assert (Hmap : map evicter (snapshot_data heap info) = in_order (evicters info)).
  { unfold snapshot_data. rewrite map_map. simpl. apply map_id. }
  rewrite Hmap. unfold in_order. split.
  - rewrite merge_sort_Permutation. apply NoDup_elements.
  - intros p. rewrite merge_sort_Permutation. apply elem_of_elements.
Qed.
End PassFacts.

(** ** The sizing changes [new_size] alone *)

Lemma distribute_thread_evicters delta l : forall e,
  map evicter (distribute_thread delta e l).2 = map evicter l.
Proof.
  induction l as [|d l IH]; intros e; simpl; [reflexivity|].
  destruct (e =? 0); [reflexivity|].
  assert (Hd : evicter (adjust delta e d).2 = evicter d).
  { unfold adjust. destruct (0 <=? _); reflexivity. }
  destruct (adjust delta e d) as [e1 d1]. specialize (IH e1).
  destruct (distribute_thread delta e1 l) as [e2 r]. simpl in *. congruence.
Qed.

Lemma distribute_pass_evicters delta data : forall e,
  map (map evicter) (distribute_pass delta e data).2 = map (map evicter) data.
Proof.
  induction data as [|v data IH]; intros e; simpl; [reflexivity|].
  destruct (e =? 0); [reflexivity|].
  pose proof (distribute_thread_evicters delta v e) as Hv.
  destruct (distribute_thread delta e v) as [e1 v1]. specialize (IH e1).
  destruct (distribute_pass delta e1 data) as [e2 r]. simpl in *. congruence.
Qed.

Lemma distribute_rounding_error_evicters fuel te : forall e data sizes,
  distribute_rounding_error fuel te e data = Some sizes ->
  map (map evicter) sizes = map (map evicter) data.
Proof.
  induction fuel as [|fuel IH]; intros e data sizes; simpl.
  - destruct (e =? 0); [|discriminate]. intros [= <-]. reflexivity.
  - destruct (e =? 0); [intros [= <-]; reflexivity|].
    pose proof (distribute_pass_evicters (rounding_delta te e) data e) as Hp.
    destruct (distribute_pass (rounding_delta te e) e data) as [e1 r].
    intros Hrun. rewrite (IH _ _ _ Hrun). exact Hp.
Qed.

Lemma new_cache_sizes_evicters fuel tcs te tbl data sizes :
  new_cache_sizes fuel tcs te tbl data = Some sizes ->
  map (map evicter) sizes = map (map evicter) data.
Proof.
  unfold new_cache_sizes. rewrite calculate_sizes_eq by lia.
  intros Hrun. rewrite (distribute_rounding_error_evicters _ _ _ _ _ Hrun).
  rewrite map_map. apply map_ext. intros v. rewrite map_map. reflexivity.
Qed.

Section Provenance.
Context {E : Type} `{Evicter E}.

(** The records that a pass hands to one thread name distinct evicters. *)
Lemma new_cache_sizes_NoDup fuel (w : world E) data te tbl new_sizes index sizes :
  snapshot (evicter_at w) 0 0 (thread_info (balancer w)) = (data, te, tbl) ->
  new_cache_sizes fuel (total_cache_size (balancer w)) te tbl data = Some new_sizes ->
  new_sizes !! index = Some sizes ->
  NoDup (map evicter sizes).
Proof.
  intros Hsnap Hsizes Hlook.
  destruct (snapshot_spec _ _ _ _ _ Hsnap) as (-> & _).
  apply new_cache_sizes_evicters in Hsizes.
  assert (Hi : map (map evicter) new_sizes !! index = Some (map evicter sizes)).
  { change (map (map evicter) new_sizes) with (map evicter <$> new_sizes).
    rewrite list_lookup_fmap, Hlook. reflexivity. }
  rewrite Hsizes, map_map in Hi.
  change (map (fun x => map evicter (snapshot_data (evicter_at w) x))
            (thread_info (balancer w)))
    with ((fun x => map evicter (snapshot_data (evicter_at w) x))
            <$> thread_info (balancer w)) in Hi.
  rewrite list_lookup_fmap in Hi.
  destruct (thread_info (balancer w) !! index) as [info|]; [|discriminate].
  injection Hi as <-. apply snapshot_data_evicters.
Qed.
End Provenance.

(** * The properties of the specification *)

Section SizingClaims.
Context {E : Type} `{Evicter E}.

(** C1, amended. In a rebalance pass with [0 < total_cache_size < 2 ^ 63]
    and at least one (and fewer than [2 ^ 63]) snapshotted evicters whose
    old sizes and bytes loaded sum to less than [2 ^ 63], the loop that
    distributes the rounding error completes, and whenever it has
    completed the new sizes sum to [total_cache_size] exactly and none is
    negative. *)
Theorem new_sizes_conserve_total_cache_size (w : world E) data te tbl :
  snapshot (evicter_at w) 0 0 (thread_info (balancer w)) = (data, te, tbl) ->
  0 < total_cache_size (balancer w) < 2 ^ 63 ->
  0 < te ->
  Z.of_nat (length (records data)) < 2 ^ 63 ->
  sum_old_and_loaded (records data) < 2 ^ 63 ->
  (exists fuel sizes,
     new_cache_sizes fuel (total_cache_size (balancer w)) te tbl data = Some sizes) /\
  (forall fuel sizes,
     new_cache_sizes fuel (total_cache_size (balancer w)) te tbl data = Some sizes ->
     sum_new_sizes (records sizes) = total_cache_size (balancer w) /\
     Forall (fun d => 0 <= new_size d) (records sizes)).
Proof.
  intros Hsnap Htcs Hte Hlen Hsum.
  destruct (snapshot_spec _ _ _ _ _ Hsnap) as (_ & Ete & Etbl & Hwf).
  rewrite u64_id in Ete by lia.
  assert (Htbl : 0 <= tbl) by (rewrite Etbl; apply u64_range).
  unfold new_cache_sizes.
  destruct (calculate_sizes (total_cache_size (balancer w)) tbl 0 data)
    as [total sizes0] eqn:Hcalc.
  destruct (calculate_sizes_inv _ _ _ _ _ Htcs Htbl Hwf Hsum Hcalc) as [Hinv Hlen0].
  assert (Ete0 : te = Z.of_nat (length (records sizes0))) by (rewrite Hlen0; exact Ete).
  split.
  - exists (Z.to_nat (Z.abs (initial_extra_bytes (total_cache_size (balancer w)) total))).
    destruct (distribute_rounding_error_terminates _ te Htcs ltac:(lia)
                (Z.to_nat (Z.abs (initial_extra_bytes (total_cache_size (balancer w)) total)))
                _ _ Ete0 Hinv)
      as (r & Hr & _); [lia|].
    exists r. exact Hr.
  - intros fuel sizes Hrun.
    destruct (distribute_rounding_error_sound _ te Htcs ltac:(lia) _ _ _ _ Ete0 Hinv Hrun)
      as (Hn & Hc & _).
    split; [lia|exact Hn].
Qed.
End SizingClaims.

(** C2, amended. For every list of records with non-negative sizes that
    sum to less than [2 ^ 63], [0 < total_cache_size < 2 ^ 63] and
    [total_evicters] the number of the records (at least one, fewer than
    [2 ^ 63]), the loop that distributes the rounding error terminates:
    a pass that starts with [extra_bytes <> 0] ends with a strictly smaller
    [|extra_bytes|], in a state of the same kind. *)
Theorem rounding_error_loop_terminates (tcs : Z) (data : list (list cache_data_t)) :
  0 < tcs < 2 ^ 63 ->
  0 < Z.of_nat (length (records data)) < 2 ^ 63 ->
  Forall (fun d => 0 <= new_size d) (records data) ->
  sum_new_sizes (records data) < 2 ^ 63 ->
  (exists fuel sizes,
     distribute_rounding_error fuel (Z.of_nat (length (records data)))
       (initial_extra_bytes tcs (u64 (sum_new_sizes (records data)))) data = Some sizes) /\
  (forall extra_bytes extra_bytes' data',
     extra_bytes = initial_extra_bytes tcs (u64 (sum_new_sizes (records data))) ->
     extra_bytes <> 0 ->
     distribute_pass (rounding_delta (Z.of_nat (length (records data))) extra_bytes)
       extra_bytes data = (extra_bytes', data') ->
     Z.abs extra_bytes' < Z.abs extra_bytes /\
     extra_bytes' = initial_extra_bytes tcs (u64 (sum_new_sizes (records data'))) /\
     length (records data') = length (records data) /\
     Forall (fun d => 0 <= new_size d) (records data') /\
     sum_new_sizes (records data') < 2 ^ 63).
Proof.
  intros Htcs Hte Hn Hs.
  pose proof (sum_new_sizes_nonneg _ Hn) as Hs0.
  assert (Hextra : forall l, nonneg_sizes l -> sum_new_sizes l < 2 ^ 63 ->
            initial_extra_bytes tcs (u64 (sum_new_sizes l)) = tcs - sum_new_sizes l).
  { intros l Hl Hb. pose proof (sum_new_sizes_nonneg _ Hl).
    unfold initial_extra_bytes. rewrite (u64_id (sum_new_sizes l)) by lia.
    unfold i64, u64. rewrite Z.mod_mod by lia. apply (i64_id (tcs - _)). lia. }
  assert (Hinv : loop_inv tcs (initial_extra_bytes tcs (u64 (sum_new_sizes (records data))))
                   (records data)).
  { rewrite Hextra by assumption. unfold loop_inv. repeat split; try assumption; lia. }
  split.
  - destruct (distribute_rounding_error_terminates tcs _ Htcs Hte
                (Z.to_nat (Z.abs (initial_extra_bytes tcs (u64 (sum_new_sizes (records data))))))
                _ data eq_refl Hinv) as (r & Hr & _); [lia|].
    eauto.
  - intros e e' data' -> Hne Hpass.
    destruct (distribute_pass_progress tcs _ _ data Htcs eq_refl Hte Hne Hinv)
      as (e1 & data1 & Heq & (Hn1 & Hc1 & Hs1 & Hlo1) & Hlt).
    pose proof (distribute_pass_length
                  (rounding_delta (Z.of_nat (length (records data)))
                     (initial_extra_bytes tcs (u64 (sum_new_sizes (records data)))))
                  data (initial_extra_bytes tcs (u64 (sum_new_sizes (records data))))) as Hl.
    rewrite Hpass in Heq, Hl. injection Heq as <- <-. simpl in Hl.
    rewrite (Hextra (records data)) by assumption.
    rewrite (Hextra (records data')) by assumption.
    rewrite (Hextra (records data)) in Hlt by assumption.
    repeat split; try assumption; lia.
Qed.


(** C3, amended. When [bytes_loaded + old_size < 2 ^ 63] and the share
    [old_size / total_cache_size * total_bytes_loaded], computed on
    doubles, has an integral part [t < 2 ^ 63], the size before
    conservation is [max(0, bytes_loaded + old_size - t)]: the share is
    truncated towards zero, not rounded to the nearest integer. The pass
    computes this size for every record of the snapshot. For the two
    evicters A (600, 300) and B (400, 100) and a cache of 1000 bytes it
    gives 660 and 340, and no rounding error is left to distribute. *)
Theorem new_size_truncates_the_share :
  (forall tcs tbl d t,
     0 <= tcs -> 0 <= tbl -> 0 <= bytes_loaded d -> 0 <= old_size d ->
     bytes_loaded d + old_size d < 2 ^ 63 ->
     trunc_double (size_share tcs tbl d) = Some t -> t < 2 ^ 63 ->
     calculate_new_size tcs tbl d = Z.max 0 (bytes_loaded d + old_size d - t)) /\
  (forall tcs tbl data,
     (calculate_sizes tcs tbl 0 data).2 =
     map (map (fun d => set_new_size (calculate_new_size tcs tbl d) d)) data) /\
  snapshot (evicter_at two_evicters) 0 0 (thread_info (balancer two_evicters)) =
    (records_of_two_evicters, 2, 400) /\
  calculate_sizes 1000 400 0 records_of_two_evicters = (1000, sizes_of_two_evicters) /\
  initial_extra_bytes 1000 1000 = 0 /\
  (forall fuel,
     new_cache_sizes fuel 1000 2 400 records_of_two_evicters = Some sizes_of_two_evicters).
Proof.
  split; [|split; [|split; [|split; [|split]]]].
  - intros tcs tbl d t Htcs Htbl Hb Ho Hs Ht Hlt.
    apply calculate_new_size_exact; try assumption.
    split; [|exact Hlt].
    apply (trunc_double_nonneg (size_share tcs tbl d)); [|exact Ht].
    apply size_share_not_negative; assumption.
  - intros tcs tbl data. rewrite calculate_sizes_eq by lia. reflexivity.
  - vm_compute. reflexivity.
  - vm_compute. reflexivity.
  - vm_compute. reflexivity.
  - intros fuel. unfold new_cache_sizes.
    replace (calculate_sizes 1000 400 0 records_of_two_evicters)
      with (1000, sizes_of_two_evicters) by (vm_compute; reflexivity).
    apply distribute_rounding_error_done.
Qed.


(** C4, amended. For a tick at time [now] such that [last_rebalance_time]
    plus the 500 ms does not exceed the range of the microsecond clock and
    the access counts sum to less than [2 ^ 64]: if less than 500 ms have
    passed and the access counts sum to less than 100 the tick leaves the
    balancer as it is; otherwise it sets [last_rebalance_time] to [now],
    adds exactly one request to the queue, and changes nothing else. *)
Theorem on_ring_waits_or_starts (now : Z) (b : alt_cache_balancer_t) :
  0 <= now < 2 ^ 64 ->
  0 <= last_rebalance_time b ->
  last_rebalance_time b + rebalance_timeout_ms * 1000 < 2 ^ 64 ->
  Forall (fun info => 0 <= access_count info) (thread_info b) ->
  sum_access_counts (thread_info b) < 2 ^ 64 ->
  (now - last_rebalance_time b < rebalance_timeout_ms * 1000 ->
   sum_access_counts (thread_info b) < rebalance_access_count_threshold ->
   on_ring now b = b) /\
  (rebalance_timeout_ms * 1000 <= now - last_rebalance_time b \/
   rebalance_access_count_threshold <= sum_access_counts (thread_info b) ->
   on_ring now b = start_rebalance now b /\
   last_rebalance_time (on_ring now b) = now /\
   pool_queue (on_ring now b) = pool_queue b ++ [dummy_value] /\
   total_cache_size (on_ring now b) = total_cache_size b /\
   read_ahead_ok (on_ring now b) = read_ahead_ok b /\
   thread_info (on_ring now b) = thread_info b).
Proof.
  intros Hnow Hlast Hwrap Hcounts Hsum. unfold on_ring.
  rewrite (total_accesses_exact _ Hcounts Hsum).
  change (rebalance_timeout_ms * 1000) with 500000 in *.
  change (u64 500000) with 500000.
  rewrite (u64_id (last_rebalance_time b + 500000)) by lia.
  split.
  - intros Hearly Hfew.
    destruct (Z.ltb_spec now (last_rebalance_time b + 500000)); [|lia].
    destruct (Z.ltb_spec (sum_access_counts (thread_info b)) rebalance_access_count_threshold);
      [reflexivity|lia].
  - intros Hdue.
    assert (Hstart :
      (if now <? last_rebalance_time b + 500000
       then if sum_access_counts (thread_info b) <? rebalance_access_count_threshold
            then b else start_rebalance now b
       else start_rebalance now b) = start_rebalance now b).
    { destruct (Z.ltb_spec now (last_rebalance_time b + 500000)); [|reflexivity].
      destruct (Z.ltb_spec (sum_access_counts (thread_info b))
                  rebalance_access_count_threshold); [lia|reflexivity]. }
    rewrite Hstart. repeat split.
Qed.

(** C5. [read_ahead_ok] starts true, and once it is false no sequence of
    rebalance passes, whatever the other threads do meanwhile, nor of
    ticks, registrations and accesses, makes it true again. *)
Theorem read_ahead_ok_never_comes_back :
  (forall tcs num_threads, read_ahead_ok (new_balancer tcs num_threads) = true) /\
  (forall (E : Type) (ops : Evicter E) (evs : list (event E)) (w w' : world E),
     read_ahead_ok (balancer w) = false ->
     run_events evs w = Some w' ->
     read_ahead_ok (balancer w') = false).
Proof.
  split; [reflexivity|]. intros E ops.
  induction evs as [|ev evs IH]; intros w w' Hoff; simpl.
  - intros [= <-]. exact Hoff.
  - destruct (run_event ev w) as [w1|] eqn:Hev; [|discriminate].
    apply IH. eapply run_event_read_ahead_ok; eassumption.
Qed.

(** C6, amended. A pass that reaches the latch with [read_ahead_ok] true
    sets it to the comparison of [cache_usage * 10] with
    [total_cache_size * 9], both reduced modulo [2 ^ 64], where
    [cache_usage] is the sum, modulo [2 ^ 64], of the usages that the
    threads have collected; this is the exact comparison when
    [cache_usage * 10] and [total_cache_size * 9] are below [2 ^ 64]. A
    usage of 920 for a cache of 1000 bytes sets it to false. *)
Theorem read_ahead_ok_is_the_wrapped_comparison :
  (forall (E : Type) (ops : Evicter E) fuel others (w : world E) data te tbl sizes,
     snapshot (evicter_at w) 0 0 (thread_info (balancer w)) = (data, te, tbl) ->
     0 < total_cache_size (balancer w) -> 0 < te ->
     new_cache_sizes fuel (total_cache_size (balancer w)) te tbl data = Some sizes ->
     read_ahead_ok (balancer w) = true ->
     exists w' cache_in_use,
       coro_pool_callback fuel others w = Some w' /\
       cache_in_use =
         (dispatch sizes (interfere others w, new_cache_in_use (balancer w))).2 /\
       read_ahead_ok (balancer w') =
         (u64 (sum_cache_in_use cache_in_use * 10)
            <? u64 (total_cache_size (balancer w) * 9)) /\
       (sum_usage cache_in_use * 10 < 2 ^ 64 ->
        total_cache_size (balancer w) * 9 < 2 ^ 64 ->
        read_ahead_ok (balancer w') =
          (sum_usage cache_in_use * 10 <? total_cache_size (balancer w) * 9))) /\
  update_read_ahead_ok 1000 true [920] = false /\
  (dispatch sizes_of_two_evicters
     (interfere quiet two_evicters, new_cache_in_use (balancer two_evicters))).2 = [580; 340] /\
  (read_ahead_ok ∘ balancer) <$> coro_pool_callback 0 quiet two_evicters = Some false.
Proof.
  split; [|split; [reflexivity|split; vm_compute; reflexivity]].
  intros E ops fuel others w data te tbl sizes Hsnap Htcs Hte Hsizes Hon.
  exists (latch (dispatch sizes (interfere others w, new_cache_in_use (balancer w)))),
         (dispatch sizes (interfere others w, new_cache_in_use (balancer w))).2.
  split; [eapply coro_pool_callback_full; eassumption|]. split; [reflexivity|].
  destruct (dispatch_frame sizes w _ (pass_frame_start others w)) as (Ht & Hr & Hu).
  assert (Hlatch :
    read_ahead_ok
      (balancer (latch (dispatch sizes (interfere others w, new_cache_in_use (balancer w))))) =
    (u64 (sum_cache_in_use
            (dispatch sizes (interfere others w, new_cache_in_use (balancer w))).2 * 10)
       <? u64 (total_cache_size (balancer w) * 9))).
  { rewrite latch_read_ahead_ok, Ht, Hr, Hon. reflexivity. }
  split; [exact Hlatch|].
  intros Husage Hbudget. rewrite Hlatch.
  assert (Hnonneg : Forall (fun u => 0 <= u)
            (dispatch sizes (interfere others w, new_cache_in_use (balancer w))).2).
  { eapply Forall_impl; [|exact Hu]. simpl. intros; lia. }
  assert (0 <= sum_usage
            (dispatch sizes (interfere others w, new_cache_in_use (balancer w))).2).
  { clear -Hnonneg. induction Hnonneg; simpl; lia. }
  rewrite sum_cache_in_use_exact by (try assumption; lia).
  rewrite !u64_id by lia. reflexivity.
Qed.

Section StateClaims.
Context {E : Type} `{Evicter E}.

(** C7. A pass that finds [total_cache_size = 0] or no evicter ends
    without error and leaves every evicter, every memory limit and every
    registration as it was. *)
Theorem early_exit_changes_no_limit_and_no_registration
    fuel others (w : world E) data te tbl :
  snapshot (evicter_at w) 0 0 (thread_info (balancer w)) = (data, te, tbl) ->
  total_cache_size (balancer w) = 0 \/ te = 0 ->
  exists w',
    coro_pool_callback fuel others w = Some w' /\
    (forall p, get_memory_limit (evicter_at w' p) = get_memory_limit (evicter_at w p)) /\
    evicter_at w' = evicter_at w /\
    map evicters (thread_info (balancer w')) = map evicters (thread_info (balancer w)).
Proof.
  intros Hsnap Hzero. exists w.
  split; [eapply coro_pool_callback_early; eassumption|].
  repeat split.
Qed.

(** C8. When thread [index] applies the records [sizes] that a pass has
    computed for it from its snapshot, whatever has happened to the
    registrations since: the evicter of a record that is registered no
    more is left as it is and adds nothing to the usage; every evicter
    that is still registered gets [update_memory_limit] with the
    [new_size] of its record, which becomes its limit; the usage collected is the sum (modulo [2 ^ 64]) of the
    footprints of those evicters; and the [access_count] of the thread
    becomes 0, its registrations staying as they are. *)
Theorem apply_skips_unregistered_evicters
    fuel (w w1 : world E) data te tbl new_sizes (index : nat) sizes info cache_in_use :
  snapshot (evicter_at w) 0 0 (thread_info (balancer w)) = (data, te, tbl) ->
  new_cache_sizes fuel (total_cache_size (balancer w)) te tbl data = Some new_sizes ->
  new_sizes !! index = Some sizes ->
  thread_info (balancer w1) !! index = Some info ->
  (forall it, it ∈ sizes -> evicter it ∉ evicters info ->
     evicter_at (apply_rebalance_to_thread index new_sizes (w1, cache_in_use)).1 (evicter it) =
     evicter_at w1 (evicter it)) /\
  (forall it, it ∈ sizes -> evicter it ∈ evicters info ->
     evicter_at (apply_rebalance_to_thread index new_sizes (w1, cache_in_use)).1 (evicter it) =
       update_memory_limit (new_size it) (evicter_at w1 (evicter it)) /\
     get_memory_limit
       (evicter_at (apply_rebalance_to_thread index new_sizes (w1, cache_in_use)).1
          (evicter it)) = new_size it) /\
  ((index < length cache_in_use)%nat ->
   (apply_rebalance_to_thread index new_sizes (w1, cache_in_use)).2 !! index =
   Some (u64 (footprint (evicter_at w1)
                (filter (fun it => evicter it ∈ evicters info) sizes)))) /\
  thread_info (balancer (apply_rebalance_to_thread index new_sizes (w1, cache_in_use)).1)
    !! index = Some {| evicters := evicters info; access_count := 0 |}.
Proof.
  intros Hsnap Hnew Hsizes Hinfo.
  pose proof (new_cache_sizes_NoDup _ _ _ _ _ _ _ _ Hsnap Hnew Hsizes) as Hnd.
  unfold apply_rebalance_to_thread.
  rewrite Hinfo, Hsizes. unfold apply_rebalance.
  pose proof (apply_sizes_spec (evicters info) sizes (evicter_at w1) 0 Hnd ltac:(lia))
    as [Hlimit Husage].
  pose proof (fun p => apply_sizes_other (evicters info) sizes p (evicter_at w1) 0) as Hother.
  destruct (apply_sizes (evicters info) (evicter_at w1) 0 sizes) as [heap' usage].
  simpl in *. repeat split.
  - intros it _ Hgone. apply Hother. left. exact Hgone.
  - apply Hlimit; assumption.
  - rewrite Hlimit by assumption. apply get_update_memory_limit.
  - intros Hlt. rewrite Husage, Z.add_0_l. apply list_lookup_insert_eq. exact Hlt.
  - apply list_lookup_insert_eq. eapply lookup_lt_Some. exact Hinfo.
Qed.

(** C10. A pass that finds [total_cache_size = 0] or no evicter resets no
    [access_count] and leaves [read_ahead_ok] as it is; a pass after
    which an [access_count] or [read_ahead_ok] has changed has found a cache
    and an evicter, has computed the sizes and has run the dispatch and the
    latch. *)
Theorem early_exit_keeps_access_counts_and_latch
    fuel others (w : world E) data te tbl :
  snapshot (evicter_at w) 0 0 (thread_info (balancer w)) = (data, te, tbl) ->
  (total_cache_size (balancer w) = 0 \/ te = 0 ->
   exists w',
     coro_pool_callback fuel others w = Some w' /\
     map access_count (thread_info (balancer w')) =
       map access_count (thread_info (balancer w)) /\
     read_ahead_ok (balancer w') = read_ahead_ok (balancer w)) /\
  (forall w',
     coro_pool_callback fuel others w = Some w' ->
     map access_count (thread_info (balancer w')) <>
       map access_count (thread_info (balancer w)) \/
     read_ahead_ok (balancer w') <> read_ahead_ok (balancer w) ->
     0 < total_cache_size (balancer w) /\ 0 < te /\
     exists sizes,
       new_cache_sizes fuel (total_cache_size (balancer w)) te tbl data = Some sizes /\
       w' = latch (dispatch sizes (interfere others w, new_cache_in_use (balancer w)))).
Proof.
  intros Hsnap. split.
  - intros Hzero. exists w.
    split; [eapply coro_pool_callback_early; eassumption|].
    split; reflexivity.
  - intros w' Hrun Hchanged. unfold coro_pool_callback in Hrun. rewrite Hsnap in Hrun.
    destruct (Z.ltb_spec 0 (total_cache_size (balancer w))) as [Htcs|Htcs];
      [destruct (Z.ltb_spec 0 te) as [Hte|Hte]|]; simpl in Hrun.
    + destruct (new_cache_sizes fuel (total_cache_size (balancer w)) te tbl data)
        as [sizes|]; [|discriminate].
      injection Hrun as <-. split; [exact Htcs|]. split; [exact Hte|].
      exists sizes. split; reflexivity.
    + injection Hrun as <-. destruct Hchanged as [Hc|Hc]; contradiction Hc; reflexivity.
    + injection Hrun as <-. destruct Hchanged as [Hc|Hc]; contradiction Hc; reflexivity.
Qed.
End StateClaims.

(** C9, amended. For a snapshot with at least one evicter in which no
    evicter has loaded a byte and the old sizes sum to [total_cache_size],
    with [0 < total_cache_size < 2 ^ 63], the pass gives every record its
    old size as new size, nothing is left to distribute, and the loop
    returns the records as they are. *)
Theorem no_load_leaves_sizes_unchanged {E : Type} `{Evicter E} (w : world E) data te tbl :
  snapshot (evicter_at w) 0 0 (thread_info (balancer w)) = (data, te, tbl) ->
  0 < total_cache_size (balancer w) < 2 ^ 63 ->
  0 < te ->
  Forall (fun d => bytes_loaded d = 0) (records data) ->
  sum_old_sizes (records data) = total_cache_size (balancer w) ->
  calculate_sizes (total_cache_size (balancer w)) tbl 0 data =
    (total_cache_size (balancer w), map (map (fun d => set_new_size (old_size d) d)) data) /\
  initial_extra_bytes (total_cache_size (balancer w)) (total_cache_size (balancer w)) = 0 /\
  forall fuel,
    new_cache_sizes fuel (total_cache_size (balancer w)) te tbl data =
    Some (map (map (fun d => set_new_size (old_size d) d)) data).
Proof.
  intros Hsnap Htcs Hte Hbl Hold.
  destruct (snapshot_spec _ _ _ _ _ Hsnap) as (_ & _ & Etbl & Hwf).
  set (tcs := total_cache_size (balancer w)) in *.
  assert (Hzero : sum_bytes_loaded (records data) = 0).
  { clear -Hbl. induction Hbl as [|d l Hd _ IH]; simpl; lia. }
  rewrite Hzero in Etbl. change (u64 0) with 0 in Etbl. subst tbl.
  assert (Hsmall : Forall (fun d => 0 <= old_size d < 2 ^ 63) (records data)).
  { assert (Hle : forall l, Forall snapshot_fields l ->
              0 <= sum_old_sizes l /\ Forall (fun d => 0 <= old_size d <= sum_old_sizes l) l).
    { induction 1 as [|d l [Ho _] _ [IH0 IH]]; simpl; [split; [lia|constructor]|].
      split; [lia|]. constructor; [lia|].
      eapply Forall_impl; [|exact IH]. simpl. intros; lia. }
    destruct (Hle _ Hwf) as [_ Hall].
    eapply Forall_impl; [|exact Hall]. simpl. intros; lia. }
  assert (Hmap : map (sized tcs 0) (records data) =
                 map (fun d => set_new_size (old_size d) d) (records data)).
  { apply map_ext_Forall.
    eapply Forall_impl; [|exact (Forall_and Hbl Hsmall)].
    simpl. intros d [Hb Ho]. unfold sized.
    rewrite calculate_new_size_no_load; [reflexivity|lia|exact Ho|exact Hb]. }
  assert (Hcalc : calculate_sizes tcs 0 0 data =
                  (tcs, map (map (fun d => set_new_size (old_size d) d)) data)).
  { rewrite calculate_sizes_eq by lia. f_equal.
    - rewrite Hmap, Z.add_0_l.
      replace (sum_new_sizes _) with (sum_old_sizes (records data)).
      + rewrite Hold. apply u64_id. lia.
      + clear. induction (records data) as [|d l IH]; simpl; [reflexivity|]. rewrite IH. reflexivity.
    - clear -Hbl Hsmall Htcs. unfold records in *.
      induction data as [|v data IH]; simpl in *; [reflexivity|].
      apply Forall_app in Hbl as [Hb1 Hb2]. apply Forall_app in Hsmall as [Hs1 Hs2].
      f_equal; [|apply IH; assumption].
      apply map_ext_Forall.
      eapply Forall_impl; [|exact (Forall_and Hb1 Hs1)].
      simpl. intros d [Hb Ho]. unfold sized.
      rewrite calculate_new_size_no_load; [reflexivity|lia|exact Ho|exact Hb]. }
  assert (Hextra : initial_extra_bytes tcs tcs = 0).
  { unfold initial_extra_bytes. rewrite Z.sub_diag. reflexivity. }
  split; [exact Hcalc|]. split; [exact Hextra|].
  intros fuel. unfold new_cache_sizes. rewrite Hcalc, Hextra.
  apply distribute_rounding_error_done.
Qed.

(** ** Counterexamples *)

(** Against C1 as stated: four idle evicters with limits of [2 ^ 62]
    bytes and a cache of 1000 bytes. The sum of the sizes of the formula
    wraps to 0, every evicter is given 250 bytes more, the loop completes
    and the new sizes sum to [2 ^ 64 + 1000]. *)
Lemma conservation_fails_for_huge_limits :
  snapshot (evicter_at four_huge_evicters) 0 0 (thread_info (balancer four_huge_evicters)) =
    (records_of_four_huge_evicters, 4, 0) /\
  0 < total_cache_size (balancer four_huge_evicters) /\
  0 < 4 /\
  (forall fuel, (0 < fuel)%nat ->
     new_cache_sizes fuel (total_cache_size (balancer four_huge_evicters)) 4 0
       records_of_four_huge_evicters = Some sizes_of_four_huge_evicters) /\
  Forall (fun d => 0 <= new_size d) (records sizes_of_four_huge_evicters) /\
  sum_new_sizes (records sizes_of_four_huge_evicters) = 2 ^ 64 + 1000 /\
  sum_new_sizes (records sizes_of_four_huge_evicters) <>
    total_cache_size (balancer four_huge_evicters).
Proof.
  split; [vm_compute; reflexivity|].
  split; [reflexivity|]. split; [reflexivity|].
  split; [|split; [|split]].
  - intros [|fuel] Hfuel; [lia|]. unfold new_cache_sizes.
    replace (calculate_sizes (total_cache_size (balancer four_huge_evicters)) 0 0
               records_of_four_huge_evicters)
      with (0, map (map (fun d => set_new_size (old_size d) d)) records_of_four_huge_evicters)
      by (vm_compute; reflexivity).
    replace (initial_extra_bytes (total_cache_size (balancer four_huge_evicters)) 0)
      with 1000 by (vm_compute; reflexivity).
    rewrite distribute_rounding_error_step by lia.
    replace (distribute_pass (rounding_delta 4 1000) 1000
               (map (map (fun d => set_new_size (old_size d) d)) records_of_four_huge_evicters))
      with (0, sizes_of_four_huge_evicters) by (vm_compute; reflexivity).
    apply distribute_rounding_error_done.
  - repeat constructor; vm_compute; discriminate.
  - vm_compute. reflexivity.
  - vm_compute. discriminate.
Qed.

(** Against C2 as stated: one record of size 0 and a cache of [2 ^ 63]
    bytes. [extra_bytes] is [INT64_MIN], no pass changes anything and the
    loop never ends. *)
Lemma loop_runs_forever_for_2_63 :
  0 < 2 ^ 63 /\
  Forall (fun d => 0 <= new_size d) (records [[empty_record]]) /\
  1 <= Z.of_nat (length (records [[empty_record]])) /\
  forall fuel,
    distribute_rounding_error fuel (Z.of_nat (length (records [[empty_record]])))
      (initial_extra_bytes (2 ^ 63) (u64 (sum_new_sizes (records [[empty_record]]))))
      [[empty_record]] = None.
Proof.
  split; [reflexivity|]. split; [repeat constructor; vm_compute; discriminate|].
  split; [vm_compute; discriminate|].
  replace (initial_extra_bytes (2 ^ 63) (u64 (sum_new_sizes (records [[empty_record]]))))
    with INT64_MIN by (vm_compute; reflexivity).
  change (Z.of_nat (length (records [[empty_record]]))) with 1.
  induction fuel as [|fuel IH]; [reflexivity|].
  rewrite distribute_rounding_error_step by (vm_compute; discriminate).
  replace (distribute_pass (rounding_delta 1 INT64_MIN) INT64_MIN [[empty_record]])
    with (INT64_MIN, [[empty_record]]) by (vm_compute; reflexivity).
  exact IH.
Qed.

(** Against C3 as stated: A with 301 bytes loaded. The share is 240.6;
    the source subtracts 240 and the formula with [round] 241. *)
Lemma rounding_to_nearest_gives_another_size :
  calculate_new_size 1000 401 record_A' = 661 /\
  spec_new_size 1000 401 record_A' = Some 660.
Proof. split; vm_compute; reflexivity. Qed.

(** Against C4 as stated: a tick in the microsecond of the last rebalance,
    [2 ^ 64 - 1], without any access. The sum of line 62 wraps and the tick
    enqueues a request. *)
Lemma tick_at_the_end_of_time_starts_a_rebalance :
  (2 ^ 64 - 1) - last_rebalance_time balancer_at_the_end_of_time < rebalance_timeout_ms * 1000 /\
  sum_access_counts (thread_info balancer_at_the_end_of_time) < rebalance_access_count_threshold /\
  pool_queue (on_ring (2 ^ 64 - 1) balancer_at_the_end_of_time) = [dummy_value] /\
  on_ring (2 ^ 64 - 1) balancer_at_the_end_of_time <> balancer_at_the_end_of_time.
Proof.
  split; [reflexivity|]. split; [reflexivity|].
  assert (Hq : pool_queue (on_ring (2 ^ 64 - 1) balancer_at_the_end_of_time) = [dummy_value])
    by (vm_compute; reflexivity).
  split; [exact Hq|]. intros Heq. rewrite Heq in Hq. discriminate Hq.
Qed.

(** Against C6 as stated: a cache of [2 ^ 61] bytes of which [2 ^ 60]
    are in use. [total_cache_size * 9] wraps and read-ahead is stopped at
    half of the budget. *)
Lemma half_used_cache_stops_read_ahead :
  read_ahead_ok (balancer half_used_2_61) = true /\
  snapshot (evicter_at half_used_2_61) 0 0 (thread_info (balancer half_used_2_61)) =
    (records_of_half_used_2_61, 1, 0) /\
  new_cache_sizes 0 (total_cache_size (balancer half_used_2_61)) 1 0 records_of_half_used_2_61 =
    Some sizes_of_half_used_2_61 /\
  (dispatch sizes_of_half_used_2_61
     (interfere quiet half_used_2_61, new_cache_in_use (balancer half_used_2_61))).2 =
    [2 ^ 60] /\
  (read_ahead_ok ∘ balancer) <$> coro_pool_callback 0 quiet half_used_2_61 = Some false /\
  (2 ^ 60 * 10 <? total_cache_size (balancer half_used_2_61) * 9) = true.
Proof. repeat (split; [vm_compute; reflexivity|]). vm_compute. reflexivity. Qed.

(** Against C9 as stated: one idle evicter whose limit is the whole cache
    of [2 ^ 63] bytes. Its old size is negative as an [int64_t] and its
    new size is 0. *)
Lemma no_load_at_2_63_loses_the_size :
  snapshot (evicter_at one_evicter_of_2_63) 0 0 (thread_info (balancer one_evicter_of_2_63)) =
    (records_of_one_evicter_of_2_63, 1, 0) /\
  0 < total_cache_size (balancer one_evicter_of_2_63) /\
  Forall (fun d => bytes_loaded d = 0) (records records_of_one_evicter_of_2_63) /\
  sum_old_sizes (records records_of_one_evicter_of_2_63) =
    total_cache_size (balancer one_evicter_of_2_63) /\
  calculate_sizes (total_cache_size (balancer one_evicter_of_2_63)) 0 0
    records_of_one_evicter_of_2_63 =
    (0, [[ {| evicter := 1%N; new_size := 0; old_size := 2 ^ 63; bytes_loaded := 0 |} ]]).
Proof.
  split; [vm_compute; reflexivity|]. split; [reflexivity|].
  split; [repeat constructor|]. split; vm_compute; reflexivity.
Qed.

(** ** The theorems at work *)

Lemma new_sizes_conserve_total_cache_size_witness :
  sum_old_and_loaded (records records_of_two_evicters) < 2 ^ 63 /\
  (exists fuel sizes,
     new_cache_sizes fuel 1000 2 400 records_of_two_evicters = Some sizes) /\
  (forall fuel sizes,
     new_cache_sizes fuel 1000 2 400 records_of_two_evicters = Some sizes ->
     sum_new_sizes (records sizes) = 1000 /\
     Forall (fun d => 0 <= new_size d) (records sizes)).
Proof.
  split; [reflexivity|].
  apply (new_sizes_conserve_total_cache_size two_evicters records_of_two_evicters 2 400).
  - vm_compute. reflexivity.
  - vm_compute. split; reflexivity.
  - reflexivity.
  - reflexivity.
  - reflexivity.
Defined.

Lemma rounding_error_loop_terminates_witness :
  sum_new_sizes (records sizes_before_rounding) = 1001 /\
  exists fuel sizes,
    distribute_rounding_error fuel 2
      (initial_extra_bytes 1000 (u64 (sum_new_sizes (records sizes_before_rounding))))
      sizes_before_rounding = Some sizes.
Proof.
  split; [reflexivity|].
  apply (rounding_error_loop_terminates 1000 sizes_before_rounding).
  - split; reflexivity.
  - split; reflexivity.
  - repeat constructor; discriminate.
  - reflexivity.
Defined.

Lemma new_size_truncates_the_share_witness :
  trunc_double (size_share 1000 400
                  {| evicter := 1%N; new_size := 0; old_size := 600; bytes_loaded := 300 |})
    = Some 240 /\
  calculate_new_size 1000 400
    {| evicter := 1%N; new_size := 0; old_size := 600; bytes_loaded := 300 |}
    = Z.max 0 (300 + 600 - 240).
Proof.
  split; [vm_compute; reflexivity|].
  apply (proj1 new_size_truncates_the_share 1000 400
           {| evicter := 1%N; new_size := 0; old_size := 600; bytes_loaded := 300 |} 240).
  - discriminate.
  - discriminate.
  - discriminate.
  - discriminate.
  - reflexivity.
  - vm_compute. reflexivity.
  - reflexivity.
Defined.

Lemma on_ring_waits_or_starts_witness :
  on_ring 20000 (balancer two_evicters) = balancer two_evicters /\
  on_ring 500000 (balancer two_evicters) = start_rebalance 500000 (balancer two_evicters).
Proof.
  split.
  - apply (on_ring_waits_or_starts 20000 (balancer two_evicters)).
    + split; [discriminate|reflexivity].
    + discriminate.
    + reflexivity.
    + repeat constructor; discriminate.
    + reflexivity.
    + reflexivity.
    + reflexivity.
  - apply (on_ring_waits_or_starts 500000 (balancer two_evicters)).
    + split; [discriminate|reflexivity].
    + discriminate.
    + reflexivity.
    + repeat constructor; discriminate.
    + reflexivity.
    + left. discriminate.
Defined.

Lemma read_ahead_ok_never_comes_back_witness :
  read_ahead_ok
    (balancer (after [Rebalance 3 quiet; Ring 600000; Access 0%nat; Rebalance 3 quiet]
                 read_ahead_stopped)) = false.
Proof.
  apply (proj2 read_ahead_ok_never_comes_back simple_evicter simple_evicter_ops
           [Rebalance 3 quiet; Ring 600000; Access 0%nat; Rebalance 3 quiet]
           read_ahead_stopped).
  - reflexivity.
  - vm_compute. reflexivity.
Defined.

Lemma read_ahead_ok_is_the_wrapped_comparison_witness :
  exists w' cache_in_use,
    coro_pool_callback 0 quiet two_evicters = Some w' /\
    cache_in_use =
      (dispatch sizes_of_two_evicters
         (interfere quiet two_evicters, new_cache_in_use (balancer two_evicters))).2 /\
    read_ahead_ok (balancer w') =
      (u64 (sum_cache_in_use cache_in_use * 10)
         <? u64 (total_cache_size (balancer two_evicters) * 9)) /\
    (sum_usage cache_in_use * 10 < 2 ^ 64 ->
     total_cache_size (balancer two_evicters) * 9 < 2 ^ 64 ->
     read_ahead_ok (balancer w') =
       (sum_usage cache_in_use * 10 <? total_cache_size (balancer two_evicters) * 9)).
Proof.
  apply (proj1 read_ahead_ok_is_the_wrapped_comparison simple_evicter simple_evicter_ops
           0%nat quiet two_evicters records_of_two_evicters 2 400 sizes_of_two_evicters).
  - vm_compute. reflexivity.
  - reflexivity.
  - reflexivity.
  - vm_compute. reflexivity.
  - reflexivity.
Defined.

Lemma early_exit_changes_no_limit_and_no_registration_witness :
  exists w',
    coro_pool_callback 3 quiet no_evicters = Some w' /\
    (forall p, get_memory_limit (evicter_at w' p) = get_memory_limit (evicter_at no_evicters p)) /\
    evicter_at w' = evicter_at no_evicters /\
    map evicters (thread_info (balancer w')) = map evicters (thread_info (balancer no_evicters)).
Proof.
  apply (early_exit_changes_no_limit_and_no_registration 3 quiet no_evicters [[]] 0 0).
  - vm_compute. reflexivity.
  - right. reflexivity.
Defined.

Lemma early_exit_keeps_access_counts_and_latch_witness :
  exists w',
    coro_pool_callback 3 quiet no_evicters = Some w' /\
    map access_count (thread_info (balancer w')) =
      map access_count (thread_info (balancer no_evicters)) /\
    read_ahead_ok (balancer w') = read_ahead_ok (balancer no_evicters).
Proof.
  apply (early_exit_keeps_access_counts_and_latch 3 quiet no_evicters [[]] 0 0).
  - vm_compute. reflexivity.
  - right. reflexivity.
Defined.

Lemma apply_skips_unregistered_evicters_witness :
  evicter_at
    (apply_rebalance_to_thread 0%nat sizes_of_two_evicters
       (two_evicters_without_A, [0; 0])).1 1%N
    = evicter_at two_evicters_without_A 1%N /\
  (apply_rebalance_to_thread 0%nat sizes_of_two_evicters
     (two_evicters_without_A, [0; 0])).2 !! 0%nat = Some 0 /\
  thread_info
    (balancer
       (apply_rebalance_to_thread 0%nat sizes_of_two_evicters
          (two_evicters_without_A, [0; 0])).1)
    !! 0%nat = Some {| evicters := ∅; access_count := 0 |}.
Proof.
  destruct (apply_skips_unregistered_evicters (E := simple_evicter) 0%nat
              two_evicters two_evicters_without_A records_of_two_evicters 2 400
              sizes_of_two_evicters 0%nat
              [ {| evicter := 1%N; new_size := 660; old_size := 600; bytes_loaded := 300 |} ]
              {| evicters := ∅; access_count := 7 |} [0; 0])
    as (Hgone & _ & Husage & Hcount).
  - vm_compute. reflexivity.
  - vm_compute. reflexivity.
  - reflexivity.
  - reflexivity.
  - split; [|split].
    + apply (Hgone {| evicter := 1%N; new_size := 660; old_size := 600; bytes_loaded := 300 |}).
      * repeat constructor.
      * apply (bool_decide_unpack _). vm_compute. exact I.
    + apply Husage. simpl. lia.
    + exact Hcount.
Defined.

Lemma no_load_leaves_sizes_unchanged_witness :
  sum_old_sizes (records records_of_idle_evicters) = 1000 /\
  new_cache_sizes 0 1000 2 0 records_of_idle_evicters =
    Some (map (map (fun d => set_new_size (old_size d) d)) records_of_idle_evicters).
Proof.
  split; [reflexivity|].
  apply (no_load_leaves_sizes_unchanged idle_evicters records_of_idle_evicters 2 0).
  - vm_compute. reflexivity.
  - vm_compute. split; reflexivity.
  - reflexivity.
  - repeat constructor.
  - reflexivity.
Defined.

(** * Further properties of the code *)

(** ** Registrations (lines 34-48) *)

Lemma thread_info_eta info :
  {| evicters := evicters info; access_count := access_count info |} = info.
Proof. destruct info; reflexivity. Qed.

Lemma set_thread_info_same b : set_thread_info (thread_info b) b = b.
Proof. destruct b; reflexivity. Qed.

Lemma fresh_union_difference (p : evicter_ptr) (s : gset evicter_ptr) :
  p ∉ s -> ({[p]} ∪ s) ∖ {[p]} = s.
Proof.
  intros Hp. apply set_eq. intros q.
  rewrite elem_of_difference, elem_of_union, elem_of_singleton. split.
  - intros [[Hq|Hq] Hne]; [contradiction|exact Hq].
  - intros Hq. split; [right; exact Hq|]. intros ->. contradiction.
Qed.

Lemma member_difference_union (p : evicter_ptr) (s : gset evicter_ptr) :
  p ∈ s -> {[p]} ∪ s ∖ {[p]} = s.
Proof.
  intros Hp. apply set_eq. intros q.
  rewrite elem_of_union, elem_of_difference, elem_of_singleton. split.
  - intros [->|[Hq _]]; assumption.
  - intros Hq. destruct (decide (q = p)) as [->|Hne]; [left; reflexivity|].
    right. split; assumption.
Qed.

Lemma member_after_union (p : evicter_ptr) (s : gset evicter_ptr) : p ∈ {[p]} ∪ s.
Proof. apply elem_of_union_l, elem_of_singleton. reflexivity. Qed.

Lemma no_member_after_difference (p : evicter_ptr) (s : gset evicter_ptr) : p ∉ s ∖ {[p]}.
Proof.
  intros Hin. apply elem_of_difference in Hin as [_ Hn].
  apply Hn, elem_of_singleton. reflexivity.
Qed.

Lemma fresh_after_union (p q : evicter_ptr) (s : gset evicter_ptr) :
  p <> q -> q ∉ s -> q ∉ {[p]} ∪ s.
Proof.
  intros Hne Hq Hin. apply elem_of_union in Hin as [Hin|Hin]; [|contradiction].
  apply elem_of_singleton in Hin. congruence.
Qed.

(** X1. An evicter that registers and then unregisters leaves the balancer
    as it was: [remove_evicter] undoes [add_evicter]. *)
Theorem add_evicter_then_remove_evicter index p b b' :
  add_evicter index p b = Some b' -> remove_evicter index p b' = Some b.
Proof.
  unfold add_evicter. destruct (thread_info b !! index) as [info|] eqn:Hinfo; [|discriminate].
  destruct (decide (p ∈ evicters info)) as [|Hfresh]; [discriminate|]. intros [= <-].
  unfold remove_evicter. simpl.
  rewrite list_lookup_insert_eq by (eapply lookup_lt_Some; exact Hinfo). simpl.
  destruct (decide (p ∈ {[p]} ∪ evicters info)) as [_|Hno];
    [|destruct (Hno (member_after_union _ _))].
  f_equal. unfold set_thread_info. simpl. rewrite list_insert_insert_eq.
  rewrite fresh_union_difference by exact Hfresh.
  rewrite thread_info_eta, list_insert_id by exact Hinfo.
  destruct b; reflexivity.
Qed.

(** X2. An evicter that unregisters and registers again leaves the balancer
    as it was: [add_evicter] undoes [remove_evicter]. *)
Theorem remove_evicter_then_add_evicter index p b b' :
  remove_evicter index p b = Some b' -> add_evicter index p b' = Some b.
Proof.
  unfold remove_evicter. destruct (thread_info b !! index) as [info|] eqn:Hinfo; [|discriminate].
  destruct (decide (p ∈ evicters info)) as [Hreg|]; [|discriminate]. intros [= <-].
  unfold add_evicter. simpl.
  rewrite list_lookup_insert_eq by (eapply lookup_lt_Some; exact Hinfo). simpl.
  destruct (decide (p ∈ evicters info ∖ {[p]})) as [Hin|_];
    [destruct (no_member_after_difference _ _ Hin)|].
  f_equal. unfold set_thread_info. simpl. rewrite list_insert_insert_eq.
  rewrite member_difference_union by exact Hreg.
  rewrite thread_info_eta, list_insert_id by exact Hinfo.
  destruct b; reflexivity.
Qed.

(** X3. The [guarantee]s fail on a repetition: an evicter that has
    registered cannot register again with its thread, one that has
    unregistered cannot unregister again, and nothing can be unregistered
    from a balancer that has just been constructed. *)
Theorem guarantee_fails_on_repeated_registration :
  (forall index p b b', add_evicter index p b = Some b' -> add_evicter index p b' = None) /\
  (forall index p b b', remove_evicter index p b = Some b' -> remove_evicter index p b' = None) /\
  (forall index p tcs num_threads, remove_evicter index p (new_balancer tcs num_threads) = None).
Proof.
  split; [|split].
  - intros index p b b'. unfold add_evicter at 1.
    destruct (thread_info b !! index) as [info|] eqn:Hinfo; [|discriminate].
    destruct (decide (p ∈ evicters info)); [discriminate|]. intros [= <-].
    unfold add_evicter. simpl.
    rewrite list_lookup_insert_eq by (eapply lookup_lt_Some; exact Hinfo). simpl.
    destruct (decide (p ∈ {[p]} ∪ evicters info)) as [_|Hno];
      [reflexivity|destruct (Hno (member_after_union _ _))].
  - intros index p b b'. unfold remove_evicter at 1.
    destruct (thread_info b !! index) as [info|] eqn:Hinfo; [|discriminate].
    destruct (decide (p ∈ evicters info)); [|discriminate]. intros [= <-].
    unfold remove_evicter. simpl.
    rewrite list_lookup_insert_eq by (eapply lookup_lt_Some; exact Hinfo). simpl.
    destruct (decide (p ∈ evicters info ∖ {[p]})) as [Hin|_];
      [destruct (no_member_after_difference _ _ Hin)|reflexivity].
  - intros index p tcs n. unfold remove_evicter, new_balancer. simpl.
    destruct (replicate n _ !! index) as [info|] eqn:Hinfo; [|reflexivity].
    apply lookup_replicate in Hinfo as [-> _]. simpl.
    destruct (decide (p ∈ (∅ : gset evicter_ptr))) as [Hin|_];
      [destruct (not_elem_of_empty (C := gset evicter_ptr) p Hin)|reflexivity].
Qed.

(** X4. Registrations commute: the balancer after two registrations, and
    whether a [guarantee] fails on the way, does not depend on their
    order. *)
Theorem registrations_commute index p index' p' b :
  add_evicter index p b ≫= add_evicter index' p' =
  add_evicter index' p' b ≫= add_evicter index p.
Proof.
  unfold add_evicter at 2 4.
  destruct (thread_info b !! index) as [info|] eqn:Hinfo;
    destruct (thread_info b !! index') as [info'|] eqn:Hinfo'; simpl.
  - destruct (decide (p ∈ evicters info)) as [Hp|Hp];
      destruct (decide (p' ∈ evicters info')) as [Hp'|Hp']; simpl; unfold add_evicter; simpl.
    + reflexivity.
    + destruct (Nat.eq_dec index index') as [->|Hne].
      * rewrite list_lookup_insert_eq by (eapply lookup_lt_Some; exact Hinfo). simpl.
        assert (info' = info) as -> by congruence.
        destruct (decide (p ∈ {[p']} ∪ evicters info)) as [_|Hno]; [reflexivity|].
        destruct Hno. apply elem_of_union_r. exact Hp.
      * rewrite list_lookup_insert_ne by congruence. rewrite Hinfo.
        destruct (decide (p ∈ evicters info)); [reflexivity|contradiction].
    + destruct (Nat.eq_dec index index') as [->|Hne].
      * rewrite list_lookup_insert_eq by (eapply lookup_lt_Some; exact Hinfo). simpl.
        assert (info' = info) as -> by congruence.
        destruct (decide (p' ∈ {[p]} ∪ evicters info)) as [_|Hno]; [reflexivity|].
        destruct Hno. apply elem_of_union_r. exact Hp'.
      * rewrite list_lookup_insert_ne by congruence. rewrite Hinfo'.
        destruct (decide (p' ∈ evicters info')); [reflexivity|contradiction].
    + destruct (Nat.eq_dec index index') as [->|Hne].
      * rewrite !list_lookup_insert_eq by (eapply lookup_lt_Some; exact Hinfo). simpl.
        assert (info' = info) as -> by congruence.
        destruct (decide (p = p')) as [->|Hpp]; [reflexivity|].
        destruct (decide (p' ∈ {[p]} ∪ evicters info)) as [Hin|_];
          [destruct (fresh_after_union p p' _ Hpp Hp' Hin)|].
        destruct (decide (p ∈ {[p']} ∪ evicters info)) as [Hin|_];
          [destruct (fresh_after_union p' p _ ltac:(congruence) Hp Hin)|].
        unfold set_thread_info. simpl. rewrite !list_insert_insert_eq.
        rewrite !(assoc_L (∪)), (comm_L (∪) {[p']} {[p]}). reflexivity.
      * rewrite !list_lookup_insert_ne by congruence. rewrite Hinfo, Hinfo'.
        destruct (decide (p' ∈ evicters info')); [contradiction|].
        destruct (decide (p ∈ evicters info)); [contradiction|].
        unfold set_thread_info. simpl. rewrite list_insert_insert_ne by congruence. reflexivity.
  - apply lookup_ge_None in Hinfo'.
    destruct (decide (p ∈ evicters info)); simpl; [reflexivity|].
    unfold add_evicter. simpl. rewrite lookup_ge_None_2; [reflexivity|].
    rewrite length_insert. exact Hinfo'.
  - apply lookup_ge_None in Hinfo.
    destruct (decide (p' ∈ evicters info')); simpl; [reflexivity|].
    unfold add_evicter. simpl. rewrite lookup_ge_None_2; [reflexivity|].
    rewrite length_insert. exact Hinfo.
  - reflexivity.
Qed.

(** ** Accesses and ticks (lines 22-28 and 50-80) *)

Lemma sum_access_counts_insert threads : forall index info info',
  threads !! index = Some info ->
  sum_access_counts (<[index := info']> threads) =
  sum_access_counts threads - access_count info + access_count info'.
Proof.
  induction threads as [|t threads IH]; intros [|index] info info' Hl; simpl in *;
    try discriminate.
  - injection Hl as ->. lia.
  - rewrite (IH _ _ info' Hl). lia.
Qed.

Lemma sum_access_counts_bound threads :
  Forall (fun info => 0 <= access_count info) threads ->
  Forall (fun info => access_count info <= sum_access_counts threads) threads.
Proof.
  induction 1 as [|info threads Hi Hn IH]; simpl; constructor.
  - assert (0 <= sum_access_counts threads) by (clear -Hn; induction Hn; simpl; lia). lia.
  - eapply Forall_impl; [|exact IH]. simpl. intros; lia.
Qed.

Lemma sum_access_counts_new tcs num_threads :
  sum_access_counts (thread_info (new_balancer tcs num_threads)) = 0.
Proof.
  simpl. induction num_threads as [|n IH]; simpl; [reflexivity|]. rewrite IH. reflexivity.
Qed.

Lemma notify_access_counts index b :
  (index < length (thread_info b))%nat ->
  Forall (fun info => 0 <= access_count info) (thread_info b) ->
  sum_access_counts (thread_info b) + 1 < 2 ^ 64 ->
  Forall (fun info => 0 <= access_count info) (thread_info (notify_access index b)) /\
  sum_access_counts (thread_info (notify_access index b)) =
    sum_access_counts (thread_info b) + 1 /\
  length (thread_info (notify_access index b)) = length (thread_info b) /\
  map evicters (thread_info (notify_access index b)) = map evicters (thread_info b) /\
  total_cache_size (notify_access index b) = total_cache_size b /\
  last_rebalance_time (notify_access index b) = last_rebalance_time b /\
  read_ahead_ok (notify_access index b) = read_ahead_ok b /\
  pool_queue (notify_access index b) = pool_queue b.
Proof.
  intros Hi Hn Hs. unfold notify_access.
  destruct (thread_info b !! index) as [info|] eqn:Hinfo.
  2:{ apply lookup_ge_None in Hinfo. lia. }
  simpl.
  pose proof (sum_access_counts_bound _ Hn) as Hb.
  rewrite Forall_lookup in Hn, Hb.
  pose proof (Hn _ _ Hinfo) as H0. pose proof (Hb _ _ Hinfo) as H1. simpl in H0, H1.
  rewrite u64_id by lia.
  split; [|split; [|split; [|split]]].
  - apply Forall_insert; [apply Forall_lookup; exact Hn|simpl; lia].
  - rewrite (sum_access_counts_insert _ _ info) by exact Hinfo. simpl. lia.
  - apply length_insert.
  - change (map evicters ?l) with (evicters <$> l).
    rewrite list_fmap_insert. simpl. apply list_insert_id.
    rewrite list_lookup_fmap, Hinfo. reflexivity.
  - repeat split.
Qed.

Lemma notify_accesses_counts indices : forall b,
  Forall (fun index => (index < length (thread_info b))%nat) indices ->
  Forall (fun info => 0 <= access_count info) (thread_info b) ->
  sum_access_counts (thread_info b) + Z.of_nat (length indices) < 2 ^ 64 ->
  Forall (fun info => 0 <= access_count info) (thread_info (notify_accesses indices b)) /\
  sum_access_counts (thread_info (notify_accesses indices b)) =
    sum_access_counts (thread_info b) + Z.of_nat (length indices) /\
  map evicters (thread_info (notify_accesses indices b)) = map evicters (thread_info b) /\
  total_cache_size (notify_accesses indices b) = total_cache_size b /\
  last_rebalance_time (notify_accesses indices b) = last_rebalance_time b /\
  read_ahead_ok (notify_accesses indices b) = read_ahead_ok b /\
  pool_queue (notify_accesses indices b) = pool_queue b.
Proof.
  induction indices as [|index indices IH]; intros b Hi Hn Hs.
  - simpl in *. rewrite Z.add_0_r. repeat split. exact Hn.
  - apply list.Forall_cons in Hi as [Hi His]. rewrite length_cons in Hs.
    destruct (notify_access_counts index b Hi Hn ltac:(lia))
      as (Hn1 & Hs1 & Hl1 & He1 & Ht1 & Hr1 & Ha1 & Hq1).
    unfold notify_accesses in *. cbn [foldl].
    destruct (IH (notify_access index b)) as (Hn2 & Hs2 & He2 & Ht2 & Hr2 & Ha2 & Hq2).
    + rewrite Hl1. exact His.
    + exact Hn1.
    + lia.
    + rewrite length_cons. repeat split; try congruence. lia.
Qed.

(** X5. No access is lost: after the accesses of any threads, as long as
    fewer than [2 ^ 64] have been counted, the sum that a tick computes has
    grown by their number, and the accesses have changed nothing but the
    counts. *)
Theorem accesses_are_counted_one_by_one indices b :
  Forall (fun index => (index < length (thread_info b))%nat) indices ->
  Forall (fun info => 0 <= access_count info) (thread_info b) ->
  sum_access_counts (thread_info b) + Z.of_nat (length indices) < 2 ^ 64 ->
  total_accesses (thread_info (notify_accesses indices b)) =
    total_accesses (thread_info b) + Z.of_nat (length indices) /\
  map evicters (thread_info (notify_accesses indices b)) = map evicters (thread_info b) /\
  total_cache_size (notify_accesses indices b) = total_cache_size b /\
  last_rebalance_time (notify_accesses indices b) = last_rebalance_time b /\
  read_ahead_ok (notify_accesses indices b) = read_ahead_ok b /\
  pool_queue (notify_accesses indices b) = pool_queue b.
Proof.
  intros Hi Hn Hs.
  destruct (notify_accesses_counts indices b Hi Hn Hs) as (Hn' & Hs' & Hrest).
  split; [|exact Hrest].
  rewrite (total_accesses_exact _ Hn') by lia.
  rewrite (total_accesses_exact _ Hn) by lia.
  exact Hs'.
Qed.

(** X6. After the construction and the accesses of [indices], a tick
    starts the first rebalance when 500 ms have passed since time 0 or 100
    accesses have been counted, and does nothing before. *)
Theorem first_rebalance_after_construction tcs num_threads indices now :
  Forall (fun index => (index < num_threads)%nat) indices ->
  Z.of_nat (length indices) < 2 ^ 64 ->
  on_ring now (notify_accesses indices (new_balancer tcs num_threads)) =
  if (now <? rebalance_timeout_ms * 1000) &&
     (Z.of_nat (length indices) <? rebalance_access_count_threshold)
  then notify_accesses indices (new_balancer tcs num_threads)
  else start_rebalance now (notify_accesses indices (new_balancer tcs num_threads)).
Proof.
  intros Hi Hlen.
  pose proof (sum_access_counts_new tcs num_threads) as H0.
  destruct (notify_accesses_counts indices (new_balancer tcs num_threads))
    as (Hn & Hs & _ & _ & Hr & _).
  - simpl. rewrite length_replicate. exact Hi.
  - simpl. apply Forall_replicate. simpl. lia.
  - rewrite H0. lia.
  - rewrite H0, Z.add_0_l in Hs.
    unfold on_ring. rewrite Hr. simpl (last_rebalance_time _).
    rewrite total_accesses_exact by (try exact Hn; lia). rewrite Hs.
    change (u64 (0 + u64 (rebalance_timeout_ms * 1000))) with (rebalance_timeout_ms * 1000).
    destruct (now <? rebalance_timeout_ms * 1000); simpl; [|reflexivity].
    destruct (Z.of_nat (length indices) <? rebalance_access_count_threshold); reflexivity.
Qed.

Lemma last_cons_default {A : Type} (l : list A) : forall a d,
  List.last (a :: l) d = List.last l a.
Proof.
  induction l as [|x l IH]; intros a d; [reflexivity|].
  change (List.last (a :: x :: l) d) with (List.last (x :: l) d).
  rewrite !IH. reflexivity.
Qed.

(** X7. A tick does not clear the access counts: as long as no pass has
    run, every tick that finds 100 accesses adds one request to the queue
    and moves [last_rebalance_time] to its time. *)
Theorem every_tick_queues_while_accesses_are_pending nows b :
  rebalance_access_count_threshold <= total_accesses (thread_info b) ->
  thread_info (on_rings nows b) = thread_info b /\
  pool_queue (on_rings nows b) = pool_queue b ++ replicate (length nows) dummy_value /\
  last_rebalance_time (on_rings nows b) = List.last nows (last_rebalance_time b).
Proof.
  revert b. induction nows as [|now nows IH]; intros b Hp.
  - simpl. rewrite app_nil_r. repeat split.
  - assert (Hstart : on_ring now b = start_rebalance now b).
    { unfold on_ring. destruct (now <? _); [|reflexivity].
      destruct (Z.ltb_spec (total_accesses (thread_info b)) rebalance_access_count_threshold);
        [lia|reflexivity]. }
    unfold on_rings in *. cbn [foldl]. rewrite Hstart.
    destruct (IH (start_rebalance now b)) as (Ht & Hq & Hl); [exact Hp|].
    rewrite Ht, Hq, Hl. split; [reflexivity|]. split.
    + simpl. rewrite <- app_assoc. reflexivity.
    + rewrite last_cons_default. reflexivity.
Qed.

(** ** The snapshot (lines 16-20 and 84-109) *)

Section SnapshotExtras.
Context {E : Type} `{Evicter E}.

Lemma length_in_order (s : gset evicter_ptr) : length (in_order s) = size s.
Proof. unfold in_order. rewrite merge_sort_Permutation. reflexivity. Qed.

Lemma length_snapshot_records (heap : evicter_ptr -> E) threads :
  length (records (map (snapshot_data heap) threads)) = count_evicters threads.
Proof.
  unfold records, count_evicters. induction threads as [|info threads IH]; simpl; [reflexivity|].
  rewrite length_app, IH. unfold snapshot_data. rewrite length_map, length_in_order.
  reflexivity.
Qed.

Lemma count_evicters_zero threads :
  count_evicters threads = 0%nat <-> Forall (fun info => evicters info = ∅) threads.
Proof.
  unfold count_evicters. induction threads as [|info threads IH]; simpl.
  - split; [constructor|reflexivity].
  - rewrite list.Forall_cons, <- IH. rewrite Nat.eq_add_0.
    rewrite size_empty_iff. unfold_leibniz. reflexivity.
Qed.

(** X8. The snapshot has one vector for every thread, and in the vector of a
    thread one record for every evicter that is registered there, in the
    order of the pointers: the record holds the limit and the load of its
    evicter and a new size of 0. [total_evicters] counts the records and
    [total_bytes_loaded] sums their loads, both modulo [2 ^ 64]. *)
Theorem snapshot_takes_every_registered_evicter (heap : evicter_ptr -> E) threads data te tbl :
  snapshot heap 0 0 threads = (data, te, tbl) ->
  length data = length threads /\
  (forall index info, threads !! index = Some info ->
     exists v, data !! index = Some v /\
       length v = size (evicters info) /\
       (forall d, d ∈ v <-> exists p, p ∈ evicters info /\ d = make_cache_data heap p) /\
       NoDup (map evicter v) /\
       Sorted N.le (map evicter v)) /\
  te = u64 (Z.of_nat (count_evicters threads)) /\
  tbl = u64 (sum_bytes_loaded (records data)).
Proof.
  intros Hsnap. destruct (snapshot_spec _ _ _ _ _ Hsnap) as (-> & -> & -> & _).
  rewrite length_snapshot_records.
  split; [apply length_map|]. split; [|split; reflexivity].
  intros index info Hinfo. exists (snapshot_data heap info).
  split.
  { change (map (snapshot_data heap) threads) with (snapshot_data heap <$> threads).
    rewrite list_lookup_fmap, Hinfo. reflexivity. }
  assert (Hmap : map evicter (snapshot_data heap info) = in_order (evicters info)).
  { unfold snapshot_data. rewrite map_map. simpl. apply map_id. }
  split; [unfold snapshot_data; rewrite length_map; apply length_in_order|].
  split; [|split].
  - intros d. unfold snapshot_data.
    change (map (make_cache_data heap) ?l) with (make_cache_data heap <$> l).
    rewrite list_elem_of_fmap. unfold in_order.
    split; intros (p & Hp1 & Hp2).
    + exists p. rewrite merge_sort_Permutation, elem_of_elements in Hp2. auto.
    + exists p. rewrite merge_sort_Permutation, elem_of_elements. auto.
  - apply snapshot_data_evicters.
  - rewrite Hmap. unfold in_order. apply Sorted_merge_sort. apply _.
Qed.

(** X9. A pass returns at once, and changes nothing, when the cache has no
    bytes or no thread has an evicter; with a cache and an evicter (and
    fewer than [2 ^ 64] evicters) it computes the sizes, dispatches them and
    runs the latch. *)
Theorem pass_is_skipped_exactly_without_cache_or_evicters fuel others (w : world E) :
  (total_cache_size (balancer w) <= 0 \/
   Forall (fun info => evicters info = ∅) (thread_info (balancer w)) ->
   coro_pool_callback fuel others w = Some w) /\
  (0 < total_cache_size (balancer w) ->
   Exists (fun info => evicters info <> ∅) (thread_info (balancer w)) ->
   Z.of_nat (count_evicters (thread_info (balancer w))) < 2 ^ 64 ->
   exists data tbl,
     snapshot (evicter_at w) 0 0 (thread_info (balancer w)) =
       (data, Z.of_nat (count_evicters (thread_info (balancer w))), tbl) /\
     coro_pool_callback fuel others w =
       (fun sizes => latch (dispatch sizes (interfere others w, new_cache_in_use (balancer w))))
         <$> new_cache_sizes fuel (total_cache_size (balancer w))
               (Z.of_nat (count_evicters (thread_info (balancer w)))) tbl data).
Proof.
  destruct (snapshot (evicter_at w) 0 0 (thread_info (balancer w))) as [[data te] tbl] eqn:Hsnap.
  destruct (snapshot_spec _ _ _ _ _ Hsnap) as (Hdata & Hte & _).
  rewrite Hdata, length_snapshot_records in Hte.
  split.
  - intros Hnone. unfold coro_pool_callback. rewrite Hsnap.
    destruct Hnone as [Hcache|Hnone].
    + destruct (Z.ltb_spec 0 (total_cache_size (balancer w))); [lia|reflexivity].
    + apply count_evicters_zero in Hnone. rewrite Hnone in Hte.
      change (u64 (Z.of_nat 0)) with 0 in Hte.
      rewrite Hte, andb_false_r. reflexivity.
  - intros Hcache Hsome Hfew. rewrite u64_id in Hte by lia.
    exists data, tbl. split; [rewrite Hte; reflexivity|].
    assert (Hpos : 0 < te).
    { destruct (Nat.eq_dec (count_evicters (thread_info (balancer w))) 0%nat) as [Hz|]; [|lia].
      apply count_evicters_zero in Hz. apply Exists_exists in Hsome as (info & Hin & Hne).
      rewrite Forall_forall in Hz. destruct (Hne (Hz _ Hin)). }
    unfold coro_pool_callback. rewrite Hsnap, <- Hte.
    destruct (Z.ltb_spec 0 (total_cache_size (balancer w))); [|lia].
    destruct (Z.ltb_spec 0 te); [|lia]. simpl.
    destruct (new_cache_sizes _ _ _ _ _); reflexivity.
Qed.
End SnapshotExtras.

(** ** The sizes of the formula (lines 116-125) *)

Lemma size_share_zero_limit tcs tbl d :
  0 < tcs < 2 ^ 64 -> 0 <= tbl < 2 ^ 64 -> old_size d = 0 ->
  i64_of_double (size_share tcs tbl d) = 0.
Proof.
  intros Ht Hl Ho. unfold size_share. rewrite Ho.
  change (double_of_u64 0) with (S754_zero false).
  pose proof (double_of_u64_rounded tcs ltac:(lia)) as Hy.
  pose proof (double_of_u64_rounded tbl Hl) as Hz.
  destruct (double_of_u64 tcs) as [sy|sy| |sy my ey]; simpl in Hy; try contradiction.
  { destruct (Z.ltb_spec 0 tcs); [discriminate|lia]. }
  destruct (double_of_u64 tbl) as [sz|sz| |sz mz ez]; simpl in Hz; try contradiction;
    reflexivity.
Qed.

(** X10. An evicter whose limit is 0 gets, before the rounding error is
    distributed, exactly the bytes that it has loaded. *)
Theorem zero_limit_gets_its_load tcs tbl d :
  0 < tcs < 2 ^ 64 -> 0 <= tbl < 2 ^ 64 ->
  old_size d = 0 -> 0 <= bytes_loaded d < 2 ^ 63 ->
  calculate_new_size tcs tbl d = bytes_loaded d.
Proof.
  intros Ht Hl Ho Hb. unfold calculate_new_size.
  rewrite size_share_zero_limit by assumption. rewrite Ho, Z.sub_0_r, Z.add_0_r.
  rewrite (i64_id (bytes_loaded d)) by lia.
  rewrite (i64_id (bytes_loaded d)) by lia.
  rewrite (i64_id (bytes_loaded d)) by lia.
  rewrite u64_id by lia. lia.
Qed.

Lemma sized_within tcs tbl l :
  0 <= tcs -> 0 <= tbl -> Forall snapshot_fields l -> sum_old_and_loaded l < 2 ^ 63 ->
  Forall2 (fun d d' => d' = set_new_size (new_size d') d /\
                       0 <= new_size d' <= old_size d + bytes_loaded d)
    l (map (sized tcs tbl) l).
Proof.
  intros Ht Hl Hwf. induction Hwf as [|d l [Ho Hb] Hwf IH]; simpl; intros Hs; constructor.
  - pose proof (sum_old_and_loaded_nonneg l Hwf).
    split; [reflexivity|]. simpl. apply calculate_new_size_bounds; lia.
  - apply IH. pose proof (sum_old_and_loaded_nonneg l Hwf). lia.
Qed.

(** X11. The sizes that the formula gives to the records of a snapshot with
    old sizes and loads below [2 ^ 63] in all: the size of a record is
    never negative and never more than its old size and its load together,
    nothing but [new_size] changes, and [total_new_sizes] is their exact
    sum, without wrap-around. *)
Theorem calculated_sizes_are_within_limit_and_load tcs tbl data total sizes :
  0 <= tcs -> 0 <= tbl ->
  Forall (fun d => 0 <= old_size d < 2 ^ 64 /\ 0 <= bytes_loaded d < 2 ^ 64) (records data) ->
  sum_old_and_loaded (records data) < 2 ^ 63 ->
  calculate_sizes tcs tbl 0 data = (total, sizes) ->
  Forall2 (fun d d' => d' = set_new_size (new_size d') d /\
                       0 <= new_size d' <= old_size d + bytes_loaded d)
    (records data) (records sizes) /\
  total = sum_new_sizes (records sizes) /\
  0 <= total <= sum_old_and_loaded (records data).
Proof.
  intros Ht Hl Hwf Hs. rewrite calculate_sizes_eq by lia. intros [= <- <-].
  rewrite records_map, Z.add_0_l.
  destruct (sized_sum_bounds tcs tbl (records data) Ht Hl Hwf Hs) as [Hn Hle].
  pose proof (sum_new_sizes_nonneg _ Hn) as H0.
  rewrite u64_id by lia.
  split; [apply sized_within; assumption|]. split; [reflexivity|lia].
Qed.

(** ** The rounding error (lines 130-151) *)

Lemma rounding_delta_positive te e :
  0 < te < 2 ^ 63 -> 0 < e < 2 ^ 63 ->
  rounding_delta te e = if e / te =? 0 then 1 else e / te.
Proof.
  intros Hte He. unfold rounding_delta, div_i64.
  rewrite (i64_id te) by lia. rewrite Z.quot_div_nonneg by lia.
  assert (Hq : 0 <= e / te <= e).
  { split; [apply Z.div_pos; lia|]. apply Z.div_le_upper_bound; nia. }
  rewrite i64_id by lia.
  destruct (e / te =? 0); [|reflexivity].
  destruct (Z.ltb_spec e 0); [lia|reflexivity].
Qed.

Lemma distribute_thread_all delta l : forall e,
  0 < delta -> delta * Z.of_nat (length l) <= e ->
  nonneg_sizes l -> sum_new_sizes l + e < 2 ^ 63 ->
  distribute_thread delta e l =
  (e - delta * Z.of_nat (length l), map (fun d => set_new_size (new_size d + delta) d) l).
Proof.
  induction l as [|d l IH]; intros e Hd Hk Hl Hb.
  - simpl. f_equal. lia.
  - rewrite length_cons in Hk. inversion Hl as [|? ? Hd0 Hl']; subst.
    pose proof (sum_new_sizes_nonneg _ Hl') as Hs. simpl in Hb.
    simpl. destruct (Z.eqb_spec e 0) as [->|Hne]; [nia|].
    rewrite adjust_up by nia. rewrite IH; try assumption; try nia.
    f_equal. nia.
Qed.

Lemma distribute_thread_ones l : forall e,
  0 <= e <= Z.of_nat (length l) -> nonneg_sizes l -> sum_new_sizes l + e < 2 ^ 63 ->
  distribute_thread 1 e l =
  (0, imap (fun i d => set_new_size (new_size d + (if Z.of_nat i <? e then 1 else 0)) d) l).
Proof.
  induction l as [|d l IH]; intros e He Hl Hb.
  - simpl in *. f_equal. lia.
  - rewrite length_cons in He. inversion Hl as [|? ? Hd0 Hl']; subst.
    pose proof (sum_new_sizes_nonneg _ Hl') as Hs. simpl in Hb.
    cbn [distribute_thread imap]. destruct (Z.eqb_spec e 0) as [->|Hne].
    + f_equal. f_equal.
      * destruct d; unfold set_new_size; simpl. rewrite Z.add_0_r. reflexivity.
      * clear. apply list_eq. intros i. rewrite list_lookup_imap.
        destruct (l !! i) as [x|]; [|reflexivity]. simpl.
        destruct (Z.ltb_spec (Z.of_nat (S i)) 0); [lia|].
        destruct x; unfold set_new_size; simpl. rewrite Z.add_0_r. reflexivity.
    + rewrite adjust_up by lia. rewrite IH; try assumption; try lia.
      f_equal. f_equal.
      * destruct (Z.ltb_spec (Z.of_nat 0) e); [reflexivity|lia].
      * apply imap_ext. intros i x _. simpl.
        destruct (Z.ltb_spec (Z.of_nat i) (e - 1)), (Z.ltb_spec (Z.of_nat (S i)) e);
          try lia; reflexivity.
Qed.

Lemma distribute_pass_shape delta data : forall e,
  map length (distribute_pass delta e data).2 = map length data.
Proof.
  intros e. pose proof (distribute_pass_evicters delta data e) as He.
  assert (Hx : forall l : list (list cache_data_t),
            map length l = map length (map (map evicter) l)).
  { intros l. rewrite map_map. apply map_ext. intros v. symmetry. apply length_map. }
  rewrite (Hx data), Hx, He. reflexivity.
Qed.

Lemma sum_new_sizes_bump delta l :
  sum_new_sizes (map (fun d => set_new_size (new_size d + delta) d) l) =
  sum_new_sizes l + delta * Z.of_nat (length l).
Proof. induction l as [|d l IH]; simpl length; simpl; [lia|]. rewrite IH. lia. Qed.

(** X12. A positive rounding error is spread evenly, in two passes at most:
    every record gets the quotient of [extra_bytes] by the number of the
    records and the first [extra_bytes mod total_evicters] records get one
    byte more; the vectors of the threads keep their lengths. *)
Theorem positive_rounding_error_is_spread_evenly fuel te e data :
  te = Z.of_nat (length (records data)) -> 0 < te < 2 ^ 63 ->
  0 < e ->
  Forall (fun d => 0 <= new_size d) (records data) ->
  sum_new_sizes (records data) + e < 2 ^ 63 ->
  exists sizes,
    distribute_rounding_error (2 + fuel) te e data = Some sizes /\
    records sizes = spread_evenly e (records data) /\
    map length sizes = map length data.
Proof.
  intros Hlen Hte He Hn Hb.
  pose proof (sum_new_sizes_nonneg _ Hn) as Hs.
  assert (Hmod : 0 <= e mod te < te) by (apply Z.mod_pos_bound; lia).
  assert (Hdiv : e = te * (e / te) + e mod te) by (apply Z.div_mod; lia).
  assert (Hq : 0 <= e / te) by (apply Z.div_pos; lia).
  change (2 + fuel)%nat with (S (S fuel)).
  rewrite distribute_rounding_error_step by lia.
  rewrite rounding_delta_positive by lia.
  destruct (Z.eqb_spec (e / te) 0) as [Hz|Hnz].
  - pose proof (distribute_pass_records 1 e data) as Hr.
    pose proof (distribute_pass_shape 1 data e) as Hsh.
    rewrite distribute_thread_ones in Hr by (try assumption; nia).
    destruct (distribute_pass 1 e data) as [e' data']. injection Hr as <- Hr.
    exists data'. split; [apply distribute_rounding_error_done|]. split; [|exact Hsh].
    rewrite <- Hr. unfold spread_evenly. rewrite <- Hlen. apply imap_ext. intros i d _. simpl.
    rewrite Hz, Z.add_0_r. replace (e mod te) with e by nia. reflexivity.
  - pose proof (distribute_pass_records (e / te) e data) as Hr.
    pose proof (distribute_pass_shape (e / te) data e) as Hsh.
    rewrite distribute_thread_all in Hr by (try assumption; nia).
    destruct (distribute_pass (e / te) e data) as [e' data1]. injection Hr as <- Hr1.
    simpl in Hsh. rewrite <- Hlen.
    replace (e - e / te * te) with (e mod te) by lia.
    destruct (Z.eq_dec (e mod te) 0) as [Hr0|Hr0].
    + rewrite Hr0. exists data1. split; [apply distribute_rounding_error_done|].
      split; [|exact Hsh].
      rewrite <- Hr1. unfold spread_evenly. rewrite <- Hlen, Hr0.
      apply list_eq. intros i. rewrite list_lookup_imap.
      change (map ?f ?l) with (f <$> l). rewrite list_lookup_fmap.
      destruct (records data !! i) as [d|]; [|reflexivity]. simpl.
      destruct (Z.ltb_spec (Z.of_nat i) 0); [lia|]. rewrite Z.add_0_r. reflexivity.
    + rewrite distribute_rounding_error_step by exact Hr0.
      assert (Hd1 : rounding_delta te (e mod te) = 1).
      { rewrite rounding_delta_positive by lia.
        rewrite Z.div_small by lia. reflexivity. }
      rewrite Hd1.
      pose proof (distribute_pass_records 1 (e mod te) data1) as Hr.
      pose proof (distribute_pass_shape 1 data1 (e mod te)) as Hsh2.
      assert (Hlen1 : length (records data1) = length (records data)).
      { rewrite <- Hr1. apply length_map. }
      rewrite distribute_thread_ones in Hr.
      * destruct (distribute_pass 1 (e mod te) data1) as [e' data2]. injection Hr as <- Hr2.
        exists data2. split; [apply distribute_rounding_error_done|].
        split; [|simpl in Hsh2; congruence].
        rewrite <- Hr2, <- Hr1. unfold spread_evenly. rewrite <- Hlen.
        apply list_eq. intros i. rewrite !list_lookup_imap.
        change (map ?f ?l) with (f <$> l). rewrite list_lookup_fmap.
        destruct (records data !! i) as [d|]; reflexivity.
      * rewrite Hlen1. lia.
      * rewrite <- Hr1. clear -Hn Hq. induction Hn; simpl; constructor; [simpl; lia|assumption].
      * rewrite <- Hr1, sum_new_sizes_bump. nia.
Qed.

Lemma adjust_lowered delta e d :
  - 2 ^ 63 <= delta < 0 -> 0 <= new_size d < 2 ^ 63 -> lowered d (adjust delta e d).2.
Proof.
  intros Hd Hn. unfold adjust, lowered.
  rewrite (i64_id (new_size d)) by lia.
  rewrite (i64_id (new_size d + delta)) by lia.
  destruct (Z.leb_spec 0 (new_size d + delta)); simpl.
  - rewrite u64_id by lia. repeat split; lia.
  - repeat split; lia.
Qed.

Lemma lowered_refl d : 0 <= new_size d -> lowered d d.
Proof. intros. unfold lowered. repeat split; lia. Qed.

Lemma lowered_all_refl l : nonneg_sizes l -> Forall2 lowered l l.
Proof. induction 1; constructor; [apply lowered_refl|]; assumption. Qed.

Lemma lowered_all_trans l1 l2 : Forall2 lowered l1 l2 ->
  forall l3, Forall2 lowered l2 l3 -> Forall2 lowered l1 l3.
Proof.
  induction 1 as [|d1 d2 l1 l2 H12 Hl IH]; intros l3 H23; inversion H23; subst;
    constructor; [|apply IH; assumption].
  unfold lowered in *. intuition (try congruence; try lia).
Qed.

Lemma distribute_thread_lowered delta l : forall e,
  - 2 ^ 63 <= delta < 0 -> Forall (fun d => 0 <= new_size d < 2 ^ 63) l ->
  Forall2 lowered l (distribute_thread delta e l).2.
Proof.
  induction l as [|d l IH]; intros e Hd Hl; simpl; [constructor|].
  inversion Hl as [|? ? Hd0 Hl']; subst.
  destruct (e =? 0).
  - simpl. apply lowered_all_refl. eapply Forall_impl; [|exact Hl]. simpl. intros; lia.
  - pose proof (adjust_lowered delta e d Hd Hd0) as Ha.
    destruct (adjust delta e d) as [e1 d1]. specialize (IH e1 Hd Hl').
    destruct (distribute_thread delta e1 l) as [e2 r]. simpl in *.
    constructor; assumption.
Qed.

Lemma sizes_below_sum l :
  nonneg_sizes l -> sum_new_sizes l < 2 ^ 63 ->
  Forall (fun d => 0 <= new_size d < 2 ^ 63) l.
Proof.
  induction 1 as [|d l Hd Hl IH]; simpl; intros Hs; constructor.
  - pose proof (sum_new_sizes_nonneg _ Hl). lia.
  - apply IH. lia.
Qed.

Lemma distribute_rounding_error_lowers te :
  0 < te < 2 ^ 63 ->
  forall fuel e data sizes,
    te = Z.of_nat (length (records data)) ->
    - 2 ^ 63 <= e <= 0 -> nonneg_sizes (records data) -> sum_new_sizes (records data) < 2 ^ 63 ->
    distribute_rounding_error fuel te e data = Some sizes ->
    Forall2 lowered (records data) (records sizes) /\
    sum_new_sizes (records sizes) = sum_new_sizes (records data) + e.
Proof.
  intros Hte. induction fuel as [|fuel IH]; intros e data sizes Hlen He Hn Hs Hrun.
  - simpl in Hrun. destruct (Z.eqb_spec e 0) as [->|]; [|discriminate].
    injection Hrun as <-. split; [apply lowered_all_refl; exact Hn|lia].
  - destruct (Z.eq_dec e 0) as [->|Hne].
    + rewrite distribute_rounding_error_done in Hrun. injection Hrun as <-.
      split; [apply lowered_all_refl; exact Hn|lia].
    + rewrite distribute_rounding_error_step in Hrun by exact Hne.
      destruct (rounding_delta_down te e) as [Hd Hk]; [lia|lia|].
      assert (Hdlo : - 2 ^ 63 <= rounding_delta te e).
      { unfold rounding_delta, div_i64.
        pose proof (i64_range (Z.quot e (i64 te))).
        destruct (_ =? 0); [destruct (e <? 0)|]; lia. }
      pose proof (distribute_pass_records (rounding_delta te e) e data) as Hr.
      pose proof (distribute_pass_length (rounding_delta te e) data e) as Hl.
      pose proof (distribute_thread_lowered (rounding_delta te e) (records data) e
                    ltac:(lia) (sizes_below_sum _ Hn Hs)) as Hlow.
      destruct (distribute_thread_down (rounding_delta te e) (records data) e)
        as (e1 & l1 & Heq & Hr1 & Hc1 & Hn1 & _); try assumption; try lia.
      rewrite Heq in Hr, Hlow.
      destruct (distribute_pass (rounding_delta te e) e data) as [e' data'].
      injection Hr as <- ->. simpl in Hl, Hlow.
      pose proof (sum_new_sizes_nonneg _ Hn1).
      destruct (IH e1 data' sizes) as [Hlow2 Hsum2]; try assumption; try lia.
      split; [eapply lowered_all_trans; eassumption|lia].
Qed.

(** X13. A negative rounding error only lowers sizes: the loop ends, and
    after it no record has a size above the one that it had or below 0,
    nothing but [new_size] has changed, and the sizes have lost what was
    too much. *)
Theorem negative_rounding_error_only_lowers_sizes te e data :
  te = Z.of_nat (length (records data)) -> 0 < te < 2 ^ 63 ->
  e < 0 ->
  Forall (fun d => 0 <= new_size d) (records data) ->
  sum_new_sizes (records data) < 2 ^ 63 ->
  0 < sum_new_sizes (records data) + e ->
  (exists fuel sizes, distribute_rounding_error fuel te e data = Some sizes) /\
  (forall fuel sizes,
     distribute_rounding_error fuel te e data = Some sizes ->
     Forall2 lowered (records data) (records sizes) /\
     sum_new_sizes (records sizes) = sum_new_sizes (records data) + e).
Proof.
  intros Hlen Hte He Hn Hs Hpos. split.
  - destruct (distribute_rounding_error_terminates (sum_new_sizes (records data) + e) te
                ltac:(lia) Hte (Z.to_nat (Z.abs e)) e data Hlen) as (r & Hr & _).
    + unfold loop_inv. repeat split; try assumption; lia.
    + lia.
    + eauto.
  - intros fuel sizes. apply distribute_rounding_error_lowers; try assumption. lia.
Qed.

(** ** The dispatch (lines 154-156 and 172-198) *)

Lemma pmap_S {S : Type} n (f : nat -> S -> S) s : pmap (Datatypes.S n) f s = f n (pmap n f s).
Proof. unfold pmap. rewrite seq_S, foldl_app. reflexivity. Qed.

Section DispatchFacts.
Context {E : Type} `{Evicter E}.

Lemma apply_rebalance_to_thread_at index new_sizes (w : world E) cache_in_use info sizes :
  thread_info (balancer w) !! index = Some info -> new_sizes !! index = Some sizes ->
  apply_rebalance_to_thread index new_sizes (w, cache_in_use) =
  ({| evicter_at := (apply_sizes (evicters info) (evicter_at w) 0 sizes).1;
      balancer := set_thread_info (<[index := reset_access_count info]> (thread_info (balancer w)))
                    (balancer w) |},
   <[index := (apply_sizes (evicters info) (evicter_at w) 0 sizes).2]> cache_in_use).
Proof.
  intros Hinfo Hsizes. unfold apply_rebalance_to_thread, apply_rebalance.
  rewrite Hinfo, Hsizes.
  destruct (apply_sizes (evicters info) (evicter_at w) 0 sizes). reflexivity.
Qed.

(** The threads after [n] calls of the dispatch. *)
Lemma dispatch_threads_upto sizes (w : world E) cache_in_use n :
  length (thread_info (balancer w)) = length sizes -> (n <= length sizes)%nat ->
  let s := pmap n (fun i => apply_rebalance_to_thread i sizes) (w, cache_in_use) in
  (forall i, thread_info (balancer s.1) !! i =
             if decide (i < n)%nat then reset_access_count <$> thread_info (balancer w) !! i
             else thread_info (balancer w) !! i) /\
  length s.2 = length cache_in_use /\
  last_rebalance_time (balancer s.1) = last_rebalance_time (balancer w) /\
  pool_queue (balancer s.1) = pool_queue (balancer w) /\
  total_cache_size (balancer s.1) = total_cache_size (balancer w) /\
  read_ahead_ok (balancer s.1) = read_ahead_ok (balancer w).
Proof.
  intros Hlen. induction n as [|n IH]; intros Hn; cbn zeta.
  - unfold pmap. simpl.
    split; [intros i; destruct (decide (i < 0)%nat); [lia|reflexivity]|repeat split].
  - rewrite pmap_S. specialize (IH ltac:(lia)). cbn zeta in IH.
    destruct (pmap n (fun i => apply_rebalance_to_thread i sizes) (w, cache_in_use))
      as [w1 c1]. simpl in IH. destruct IH as (Ht & Hc & Hl & Hq & Hs & Hr).
    destruct (lookup_lt_is_Some_2 (thread_info (balancer w)) n ltac:(lia)) as [info Hinfo].
    destruct (lookup_lt_is_Some_2 sizes n ltac:(lia)) as [sz Hsz].
    assert (Hinfo1 : thread_info (balancer w1) !! n = Some info).
    { rewrite Ht. destruct (decide (n < n)%nat); [lia|exact Hinfo]. }
    rewrite (apply_rebalance_to_thread_at _ _ _ _ _ _ Hinfo1 Hsz). simpl.
    split; [|split; [rewrite length_insert; exact Hc|repeat split; assumption]].
    intros i. destruct (Nat.eq_dec i n) as [->|Hne].
    + rewrite list_lookup_insert_eq by (eapply lookup_lt_Some; exact Hinfo1).
      destruct (decide (n < Datatypes.S n)%nat); [|lia]. rewrite Hinfo. reflexivity.
    + rewrite list_lookup_insert_ne by congruence. rewrite Ht.
      destruct (decide (i < n)%nat), (decide (i < Datatypes.S n)%nat); try lia; reflexivity.
Qed.

Lemma dispatch_threads sizes (w : world E) cache_in_use :
  length (thread_info (balancer w)) = length sizes ->
  thread_info (balancer (dispatch sizes (w, cache_in_use)).1) =
    map reset_access_count (thread_info (balancer w)) /\
  length (dispatch sizes (w, cache_in_use)).2 = length cache_in_use /\
  last_rebalance_time (balancer (dispatch sizes (w, cache_in_use)).1) =
    last_rebalance_time (balancer w) /\
  pool_queue (balancer (dispatch sizes (w, cache_in_use)).1) = pool_queue (balancer w) /\
  total_cache_size (balancer (dispatch sizes (w, cache_in_use)).1) =
    total_cache_size (balancer w) /\
  read_ahead_ok (balancer (dispatch sizes (w, cache_in_use)).1) = read_ahead_ok (balancer w).
Proof.
  intros Hlen.
  destruct (dispatch_threads_upto sizes w cache_in_use (length sizes) Hlen (le_n _))
    as (Ht & Hrest).
  split; [|exact Hrest].
  apply list_eq. intros i. unfold dispatch. rewrite Ht.
  change (map reset_access_count ?l) with (reset_access_count <$> l).
  rewrite list_lookup_fmap.
  destruct (decide (i < length sizes)%nat) as [|Hge]; [reflexivity|].
  rewrite lookup_ge_None_2 by lia. reflexivity.
Qed.

(** The evicters after [n] calls of the dispatch. *)
Lemma dispatch_limits_upto sizes (w : world E) cache_in_use n :
  length (thread_info (balancer w)) = length sizes -> (n <= length sizes)%nat ->
  (forall i info sz, thread_info (balancer w) !! i = Some info -> sizes !! i = Some sz ->
     NoDup (map evicter sz) /\ forall it, it ∈ sz -> evicter it ∈ evicters info) ->
  (forall i j info info', i <> j ->
     thread_info (balancer w) !! i = Some info -> thread_info (balancer w) !! j = Some info' ->
     evicters info ## evicters info') ->
  forall i sz it, (i < n)%nat -> sizes !! i = Some sz -> it ∈ sz ->
    get_memory_limit
      (evicter_at (pmap n (fun i => apply_rebalance_to_thread i sizes) (w, cache_in_use)).1
         (evicter it)) = new_size it.
Proof.
  intros Hlen Hn Hreg Hdisj. induction n as [|n IH]; intros i sz it Hi Hsz Hit; [lia|].
  rewrite pmap_S.
  destruct (dispatch_threads_upto sizes w cache_in_use n Hlen ltac:(lia)) as (Ht & _).
  specialize (IH ltac:(lia)).
  destruct (pmap n (fun i => apply_rebalance_to_thread i sizes) (w, cache_in_use))
    as [w1 c1]. simpl in Ht, IH.
  destruct (lookup_lt_is_Some_2 (thread_info (balancer w)) n ltac:(lia)) as [info Hinfo].
  destruct (lookup_lt_is_Some_2 sizes n ltac:(lia)) as [szn Hszn].
  assert (Hinfo1 : thread_info (balancer w1) !! n = Some info).
  { rewrite Ht. destruct (decide (n < n)%nat); [lia|exact Hinfo]. }
  rewrite (apply_rebalance_to_thread_at _ _ _ _ _ _ Hinfo1 Hszn). simpl.
  destruct (Hreg n info szn Hinfo Hszn) as [Hnd Hin].
  destruct (Nat.eq_dec i n) as [->|Hne].
  - assert (sz = szn) as -> by congruence.
    destruct (apply_sizes_spec (evicters info) szn (evicter_at w1) 0 Hnd ltac:(lia)) as [Hl _].
    rewrite Hl by auto. apply get_update_memory_limit.
  - destruct (lookup_lt_is_Some_2 (thread_info (balancer w)) i ltac:(lia)) as [infoi Hinfoi].
    destruct (Hreg i infoi sz Hinfoi Hsz) as [_ Hini].
    rewrite apply_sizes_other.
    + apply (IH i sz); [lia|assumption|assumption].
    + left. intros Hbad. apply (Hdisj i n infoi info Hne Hinfoi Hinfo (evicter it)); auto.
Qed.

(** The usages are set by the threads: what [cache_in_use] holds at the
    start does not matter. *)
Lemma dispatch_cache_in_use_upto sizes (w : world E) c c' n :
  length (thread_info (balancer w)) = length sizes -> (n <= length sizes)%nat ->
  length c = length sizes -> length c' = length sizes ->
  let s := pmap n (fun i => apply_rebalance_to_thread i sizes) (w, c) in
  let s' := pmap n (fun i => apply_rebalance_to_thread i sizes) (w, c') in
  s.1 = s'.1 /\ forall i, (i < n)%nat -> s.2 !! i = s'.2 !! i.
Proof.
  intros Hlen Hn Hc Hc'. induction n as [|n IH]; cbn zeta.
  - split; [reflexivity|]. intros i Hi. lia.
  - rewrite !pmap_S. specialize (IH ltac:(lia)). cbn zeta in IH.
    destruct (dispatch_threads_upto sizes w c n Hlen ltac:(lia)) as (Ht & Hl1 & _).
    destruct (dispatch_threads_upto sizes w c' n Hlen ltac:(lia)) as (_ & Hl2 & _).
    destruct (pmap n (fun i => apply_rebalance_to_thread i sizes) (w, c)) as [w1 c1].
    destruct (pmap n (fun i => apply_rebalance_to_thread i sizes) (w, c')) as [w2 c2].
    simpl in IH, Ht, Hl1, Hl2. destruct IH as [<- Hsame].
    destruct (lookup_lt_is_Some_2 (thread_info (balancer w)) n ltac:(lia)) as [info Hinfo].
    destruct (lookup_lt_is_Some_2 sizes n ltac:(lia)) as [sz Hsz].
    assert (Hinfo1 : thread_info (balancer w1) !! n = Some info).
    { rewrite Ht. destruct (decide (n < n)%nat); [lia|exact Hinfo]. }
    rewrite !(apply_rebalance_to_thread_at _ _ _ _ _ _ Hinfo1 Hsz). simpl.
    split; [reflexivity|]. intros i Hi.
    destruct (Nat.eq_dec i n) as [->|Hne].
    + rewrite !list_lookup_insert_eq by lia. reflexivity.
    + rewrite !list_lookup_insert_ne by congruence. apply Hsame. lia.
Qed.

(** X14. The dispatch does not read what [cache_in_use] holds before it:
    every thread sets its own element first (line 183), so that the elements
    which [init] leaves unset do not matter. *)
Theorem dispatch_sets_every_usage sizes (w : world E) c c' :
  length (thread_info (balancer w)) = length sizes ->
  length c = length sizes -> length c' = length sizes ->
  dispatch sizes (w, c) = dispatch sizes (w, c').
Proof.
  intros Hlen Hc Hc'.
  destruct (dispatch_cache_in_use_upto sizes w c c' (length sizes) Hlen (le_n _) Hc Hc')
    as [Hw Hu].
  destruct (dispatch_threads_upto sizes w c (length sizes) Hlen (le_n _)) as (_ & Hl1 & _).
  destruct (dispatch_threads_upto sizes w c' (length sizes) Hlen (le_n _)) as (_ & Hl2 & _).
  unfold dispatch. cbn zeta in *.
  destruct (pmap (length sizes) _ (w, c)) as [w1 c1].
  destruct (pmap (length sizes) _ (w, c')) as [w2 c2]. simpl in *.
  f_equal; [exact Hw|]. apply list_eq. intros i.
  destruct (decide (i < length sizes)%nat) as [Hi|Hi]; [apply Hu; exact Hi|].
  rewrite !lookup_ge_None_2 by lia. reflexivity.
Qed.
End DispatchFacts.


Lemma new_cache_sizes_length fuel tcs te tbl data sizes :
  new_cache_sizes fuel tcs te tbl data = Some sizes -> length sizes = length data.
Proof.
  intros Hrun. apply new_cache_sizes_evicters in Hrun.
  apply (f_equal length) in Hrun. rewrite !length_map in Hrun. exact Hrun.
Qed.

Section PassExtras.
Context {E : Type} `{Evicter E}.

Lemma interfere_balancer others (w : world E) :
  total_cache_size (balancer (interfere others w)) = total_cache_size (balancer w) /\
  last_rebalance_time (balancer (interfere others w)) = last_rebalance_time (balancer w) /\
  read_ahead_ok (balancer (interfere others w)) = read_ahead_ok (balancer w) /\
  pool_queue (balancer (interfere others w)) = pool_queue (balancer w).
Proof. unfold interfere. destruct (others _). repeat split. Qed.

Lemma latch_balancer (s : world E * list Z) :
  evicter_at (latch s) = evicter_at s.1 /\
  thread_info (balancer (latch s)) = thread_info (balancer s.1) /\
  total_cache_size (balancer (latch s)) = total_cache_size (balancer s.1) /\
  last_rebalance_time (balancer (latch s)) = last_rebalance_time (balancer s.1) /\
  pool_queue (balancer (latch s)) = pool_queue (balancer s.1).
Proof. destruct s. repeat split. Qed.

Lemma snapshot_length (heap : evicter_ptr -> E) threads data te tbl :
  snapshot heap 0 0 threads = (data, te, tbl) -> length data = length threads.
Proof.
  intros Hsnap. destruct (snapshot_spec _ _ _ _ _ Hsnap) as (-> & _). apply length_map.
Qed.


Lemma registered_evicters_reset threads :
  registered_evicters (map reset_access_count threads) = registered_evicters threads.
Proof. unfold registered_evicters. rewrite map_map. reflexivity. Qed.

Lemma registered_evicters_ext threads threads' :
  map evicters threads = map evicters threads' ->
  registered_evicters threads = registered_evicters threads'.
Proof.
  intros He. unfold registered_evicters.
  rewrite <- (map_map evicters in_order threads), <- (map_map evicters in_order threads'), He.
  reflexivity.
Qed.

Lemma registered_evicters_snapshot (heap : evicter_ptr -> E) threads :
  map evicter (records (map (snapshot_data heap) threads)) = registered_evicters threads.
Proof.
  unfold records, registered_evicters.
  induction threads as [|info threads IH]; simpl; [reflexivity|].
  rewrite map_app, IH. f_equal. unfold snapshot_data. rewrite map_map. apply map_id.
Qed.

Lemma records_evicters data : map evicter (records data) = concat (map (map evicter) data).
Proof.
  unfold records. induction data as [|v data IH]; simpl; [reflexivity|].
  rewrite map_app, IH. reflexivity.
Qed.

Lemma elem_of_records it data :
  it ∈ records data -> exists i sz, data !! i = Some sz /\ it ∈ sz.
Proof.
  unfold records. induction data as [|v data IH]; simpl; intros Hit.
  - inversion Hit.
  - apply elem_of_app in Hit as [Hit|Hit].
    + exists 0%nat, v. split; [reflexivity|exact Hit].
    + destruct (IH Hit) as (i & sz & Hsz & Hin). exists (Datatypes.S i), sz. auto.
Qed.

Lemma sum_memory_limits_records (heap : evicter_ptr -> E) l :
  (forall it, it ∈ l -> get_memory_limit (heap (evicter it)) = new_size it) ->
  sum_memory_limits heap (map evicter l) = sum_new_sizes l.
Proof.
  induction l as [|d l IH]; intros Hl; simpl; [reflexivity|].
  rewrite Hl by left. rewrite IH; [reflexivity|]. intros it Hit. apply Hl. right. exact Hit.
Qed.

Lemma one_thread_each_ext threads threads' :
  map evicters threads = map evicters threads' -> one_thread_each threads ->
  one_thread_each threads'.
Proof.
  intros He Hd i j info info' Hne Hi Hj.
  assert (Hl : forall k x, threads' !! k = Some x ->
            exists y, threads !! k = Some y /\ evicters y = evicters x).
  { intros k x Hk.
    assert (Hm : map evicters threads' !! k = Some (evicters x)).
    { change (map evicters threads') with (evicters <$> threads').
      rewrite list_lookup_fmap, Hk. reflexivity. }
    rewrite <- He in Hm. change (map evicters threads) with (evicters <$> threads) in Hm.
    rewrite list_lookup_fmap in Hm.
    destruct (threads !! k) as [y|]; [|discriminate]. injection Hm as Hm. eauto. }
  destruct (Hl _ _ Hi) as (y & Hy & <-). destruct (Hl _ _ Hj) as (y' & Hy' & <-).
  eapply Hd; eassumption.
Qed.

(** The sizes of a pass, under the conditions of the conservation. *)
Lemma new_cache_sizes_total (w : world E) data te tbl :
  snapshot (evicter_at w) 0 0 (thread_info (balancer w)) = (data, te, tbl) ->
  0 < total_cache_size (balancer w) < 2 ^ 63 -> 0 < te ->
  Z.of_nat (length (records data)) < 2 ^ 63 ->
  sum_old_and_loaded (records data) < 2 ^ 63 ->
  (exists fuel sizes,
     new_cache_sizes fuel (total_cache_size (balancer w)) te tbl data = Some sizes) /\
  (forall fuel sizes,
     new_cache_sizes fuel (total_cache_size (balancer w)) te tbl data = Some sizes ->
     sum_new_sizes (records sizes) = total_cache_size (balancer w)).
Proof.
  intros Hsnap Htcs Hte Hlen Hsum.
  destruct (snapshot_spec _ _ _ _ _ Hsnap) as (_ & Ete & Etbl & Hwf).
  rewrite u64_id in Ete by lia.
  assert (Htbl : 0 <= tbl) by (rewrite Etbl; apply u64_range).
  unfold new_cache_sizes.
  destruct (calculate_sizes (total_cache_size (balancer w)) tbl 0 data)
    as [total sizes0] eqn:Hcalc.
  destruct (calculate_sizes_inv _ _ _ _ _ Htcs Htbl Hwf Hsum Hcalc) as [Hinv Hlen0].
  assert (Ete0 : te = Z.of_nat (length (records sizes0))) by (rewrite Hlen0; exact Ete).
  split.
  - exists (Z.to_nat (Z.abs (initial_extra_bytes (total_cache_size (balancer w)) total))).
    destruct (distribute_rounding_error_terminates _ te Htcs ltac:(lia)
                (Z.to_nat (Z.abs (initial_extra_bytes (total_cache_size (balancer w)) total)))
                _ _ Ete0 Hinv)
      as (r & Hr & _); [lia|].
    exists r. exact Hr.
  - intros fuel sizes Hrun.
    destruct (distribute_rounding_error_sound _ te Htcs ltac:(lia) _ _ _ _ Ete0 Hinv Hrun)
      as (_ & Hc & _).
    lia.
Qed.

(** X16. When no evicter is registered with two threads and none is
    registered or unregistered while the pass runs, then after a pass (on a
    cache and evicters within the range of [int64_t]) the memory limits of
    the registered evicters add up to [total_cache_size], and such a pass
    completes. *)
Theorem limits_add_up_to_total_cache_size others (w : world E) data te tbl :
  snapshot (evicter_at w) 0 0 (thread_info (balancer w)) = (data, te, tbl) ->
  0 < total_cache_size (balancer w) < 2 ^ 63 -> 0 < te ->
  Z.of_nat (length (records data)) < 2 ^ 63 ->
  sum_old_and_loaded (records data) < 2 ^ 63 ->
  one_thread_each (thread_info (balancer w)) ->
  map evicters (thread_info (balancer (interfere others w))) =
    map evicters (thread_info (balancer w)) ->
  (exists fuel w', coro_pool_callback fuel others w = Some w') /\
  (forall fuel w',
     coro_pool_callback fuel others w = Some w' ->
     registered_evicters (thread_info (balancer w')) =
       registered_evicters (thread_info (balancer w)) /\
     sum_memory_limits (evicter_at w') (registered_evicters (thread_info (balancer w'))) =
       total_cache_size (balancer w')).
Proof.
  intros Hsnap Htcs Hte Hlen Hsum Hone Hreg.
  destruct (new_cache_sizes_total w data te tbl Hsnap Htcs Hte Hlen Hsum) as [Hex Hall].
  split.
  - destruct Hex as (fuel & sizes & Hsizes). exists fuel. eexists.
    eapply coro_pool_callback_full; try eassumption. lia.
  - intros fuel w' Hrun.
    destruct (new_cache_sizes fuel (total_cache_size (balancer w)) te tbl data)
      as [sizes|] eqn:Hsizes.
    2:{ unfold coro_pool_callback in Hrun. rewrite Hsnap in Hrun.
        destruct (Z.ltb_spec 0 (total_cache_size (balancer w))); [|lia].
        destruct (Z.ltb_spec 0 te); [|lia]. simpl in Hrun. rewrite Hsizes in Hrun.
        discriminate. }
    rewrite (coro_pool_callback_full fuel others w data te tbl sizes Hsnap ltac:(lia) Hte Hsizes)
      in Hrun. injection Hrun as <-.
    pose proof (snapshot_length _ _ _ _ _ Hsnap) as Hld.
    pose proof (new_cache_sizes_length _ _ _ _ _ _ Hsizes) as Hls.
    pose proof (f_equal length Hreg) as Hlt. rewrite !length_map in Hlt.
    set (w1 := interfere others w) in *.
    set (c := new_cache_in_use (balancer w)).
    destruct (dispatch_threads sizes w1 c) as (Ht & _ & _ & _ & Hc & _); [congruence|].
    destruct (latch_balancer (dispatch sizes (w1, c))) as (He1 & Ht1 & Hc1 & _).
    destruct (interfere_balancer others w) as (Hc0 & _).
    fold w1 in Hc0.
    assert (Hptrs : registered_evicters (thread_info (balancer (latch (dispatch sizes (w1, c))))) =
                    registered_evicters (thread_info (balancer w))).
    { rewrite Ht1, Ht, registered_evicters_reset. apply registered_evicters_ext. exact Hreg. }
    split; [exact Hptrs|].
    rewrite Hptrs, Hc1, Hc, Hc0, He1.
    destruct (snapshot_spec _ _ _ _ _ Hsnap) as (Hdata & _).
    pose proof (new_cache_sizes_evicters _ _ _ _ _ _ Hsizes) as Hev.
    assert (Hrec : map evicter (records sizes) = registered_evicters (thread_info (balancer w))).
    { rewrite records_evicters, Hev, <- records_evicters, Hdata.
      apply registered_evicters_snapshot. }
    rewrite <- Hrec, <- (Hall fuel sizes Hsizes).
    apply sum_memory_limits_records.
    intros it Hit. apply elem_of_records in Hit as (i & sz & Hsz & Hit).
    unfold dispatch.
    apply (dispatch_limits_upto sizes w1 c (length sizes)) with (i := i) (sz := sz);
      try assumption; try congruence; try lia.
    + intros k info szk Hinfo Hszk.
      assert (Hk : map evicter szk = in_order (evicters info)).
      { assert (Hm : map (map evicter) sizes !! k = Some (map evicter szk)).
        { change (map (map evicter) sizes) with (map evicter <$> sizes).
          rewrite list_lookup_fmap, Hszk. reflexivity. }
        rewrite Hev, Hdata, map_map in Hm.
        assert (Hm' : map evicters (thread_info (balancer w1)) !! k = Some (evicters info)).
        { change (map evicters ?l) with (evicters <$> l).
          rewrite list_lookup_fmap, Hinfo. reflexivity. }
        rewrite Hreg in Hm'. change (map evicters ?l) with (evicters <$> l) in Hm'.
        rewrite list_lookup_fmap in Hm'.
        change (map ?f (thread_info (balancer w))) with (f <$> thread_info (balancer w)) in Hm.
        rewrite list_lookup_fmap in Hm.
        destruct (thread_info (balancer w) !! k) as [info0|]; [|discriminate].
        injection Hm' as Hm'. injection Hm as Hm. rewrite <- Hm, <- Hm'.
        unfold snapshot_data. rewrite map_map. simpl. apply map_id. }
      split.
      * rewrite Hk. unfold in_order. rewrite merge_sort_Permutation. apply NoDup_elements.
      * intros it' Hit'.
        assert (Hin : evicter it' ∈ map evicter szk).
        { apply list_elem_of_fmap. exists it'. split; [reflexivity|exact Hit']. }
        rewrite Hk in Hin. unfold in_order in Hin.
        rewrite merge_sort_Permutation in Hin. apply elem_of_elements. exact Hin.
    + eapply one_thread_each_ext; [symmetry; exact Hreg|exact Hone].
    + eapply lookup_lt_Some. exact Hsz.
Qed.
End PassExtras.

(** ** The life of a balancer *)

Section LifeExtras.
Context {E : Type} `{Evicter E}.




End LifeExtras.


(** ** The further properties at work *)

Lemma add_evicter_then_remove_evicter_witness :
  remove_evicter 0 1%N (balancer two_evicters) = Some (balancer two_evicters_without_A).
Proof.
  apply (add_evicter_then_remove_evicter 0 1%N (balancer two_evicters_without_A)
           (balancer two_evicters)).
  vm_compute. reflexivity.
Defined.

Lemma remove_evicter_then_add_evicter_witness :
  add_evicter 1 2%N (set_thread_info
                       [ {| evicters := {[ 1%N ]}; access_count := 7 |};
                         {| evicters := ∅; access_count := 3 |} ] (balancer two_evicters)) =
  Some (balancer two_evicters).
Proof.
  apply (remove_evicter_then_add_evicter 1 2%N (balancer two_evicters)).
  vm_compute. reflexivity.
Defined.

Lemma guarantee_fails_on_repeated_registration_witness :
  add_evicter 0 1%N (balancer two_evicters) = None.
Proof.
  apply (proj1 guarantee_fails_on_repeated_registration 0%nat 1%N
           (balancer two_evicters_without_A) (balancer two_evicters)).
  vm_compute. reflexivity.
Defined.

Lemma accesses_are_counted_one_by_one_witness :
  total_accesses (thread_info (notify_accesses [0; 1; 1]%nat (balancer two_evicters))) =
  total_accesses (thread_info (balancer two_evicters)) + 3.
Proof.
  apply (accesses_are_counted_one_by_one [0; 1; 1]%nat (balancer two_evicters)).
  - repeat constructor.
  - repeat constructor; discriminate.
  - reflexivity.
Defined.

Lemma first_rebalance_after_construction_witness :
  on_ring 20000 (notify_accesses [0; 1; 0]%nat (new_balancer 1000 2)) =
  notify_accesses [0; 1; 0]%nat (new_balancer 1000 2).
Proof.
  apply (first_rebalance_after_construction 1000 2 [0; 1; 0]%nat 20000).
  - repeat constructor.
  - reflexivity.
Defined.

Lemma every_tick_queues_while_accesses_are_pending_witness :
  pool_queue (on_rings [20000; 40000; 60000] busy_balancer) =
  [dummy_value; dummy_value; dummy_value].
Proof.
  apply (every_tick_queues_while_accesses_are_pending [20000; 40000; 60000] busy_balancer).
  discriminate.
Defined.

Lemma snapshot_takes_every_registered_evicter_witness :
  length records_of_two_evicters = length (thread_info (balancer two_evicters)) /\
  2 = u64 (Z.of_nat (count_evicters (thread_info (balancer two_evicters)))).
Proof.
  destruct (snapshot_takes_every_registered_evicter (evicter_at two_evicters)
              (thread_info (balancer two_evicters)) records_of_two_evicters 2 400)
    as (Hlen & _ & Hte & _).
  - vm_compute. reflexivity.
  - split; [exact Hlen|exact Hte].
Defined.

Lemma pass_is_skipped_exactly_without_cache_or_evicters_witness :
  coro_pool_callback 3 quiet no_evicters = Some no_evicters.
Proof.
  apply (proj1 (pass_is_skipped_exactly_without_cache_or_evicters 3 quiet no_evicters)).
  right. repeat constructor.
Defined.

Lemma zero_limit_gets_its_load_witness :
  calculate_new_size 1000 400 record_without_limit = 50.
Proof.
  apply (zero_limit_gets_its_load 1000 400 record_without_limit).
  - split; reflexivity.
  - split; [discriminate|reflexivity].
  - reflexivity.
  - split; [discriminate|reflexivity].
Defined.

Lemma calculated_sizes_are_within_limit_and_load_witness :
  Forall2 (fun d d' => d' = set_new_size (new_size d') d /\
                       0 <= new_size d' <= old_size d + bytes_loaded d)
    (records records_of_two_evicters) (records sizes_of_two_evicters) /\
  1000 = sum_new_sizes (records sizes_of_two_evicters) /\
  0 <= 1000 <= sum_old_and_loaded (records records_of_two_evicters).
Proof.
  apply (calculated_sizes_are_within_limit_and_load 1000 400 records_of_two_evicters
           1000 sizes_of_two_evicters).
  - discriminate.
  - discriminate.
  - repeat constructor; discriminate.
  - reflexivity.
  - vm_compute. reflexivity.
Defined.

Lemma positive_rounding_error_is_spread_evenly_witness :
  exists sizes,
    distribute_rounding_error 2 2 3 sizes_of_two_evicters = Some sizes /\
    records sizes = spread_evenly 3 (records sizes_of_two_evicters) /\
    map length sizes = map length sizes_of_two_evicters.
Proof.
  apply (positive_rounding_error_is_spread_evenly 0 2 3 sizes_of_two_evicters).
  - reflexivity.
  - split; reflexivity.
  - reflexivity.
  - repeat constructor; discriminate.
  - reflexivity.
Defined.

Lemma negative_rounding_error_only_lowers_sizes_witness :
  exists fuel sizes, distribute_rounding_error fuel 2 (-1) sizes_before_rounding = Some sizes.
Proof.
  apply (negative_rounding_error_only_lowers_sizes 2 (-1) sizes_before_rounding).
  - reflexivity.
  - split; reflexivity.
  - reflexivity.
  - repeat constructor; discriminate.
  - reflexivity.
  - reflexivity.
Defined.

Lemma dispatch_sets_every_usage_witness :
  dispatch sizes_of_two_evicters (two_evicters, [0; 0]) =
  dispatch sizes_of_two_evicters (two_evicters, [5; 7]).
Proof.
  apply (dispatch_sets_every_usage sizes_of_two_evicters two_evicters [0; 0] [5; 7]);
    reflexivity.
Defined.


Lemma limits_add_up_to_total_cache_size_witness :
  exists fuel w', coro_pool_callback fuel quiet two_evicters = Some w'.
Proof.
  apply (limits_add_up_to_total_cache_size quiet two_evicters records_of_two_evicters 2 400).
  - vm_compute. reflexivity.
  - split; reflexivity.
  - reflexivity.
  - reflexivity.
  - reflexivity.
  - intros [|[|i]] [|[|j]] info info' Hne; simpl; intros Hi Hj;
      try discriminate; try congruence;
      injection Hi as <-; injection Hj as <-; simpl;
      apply (bool_decide_unpack _); vm_compute; exact I.
  - reflexivity.
Defined.

